(** * Search integrations: a shallow embedding of
      [backend/features/search/integrations.py], [models.py] and
      [router.py].

    The development follows the layout of the Python module:

    - [PyStr]    the [str] methods the scorer uses ([lower], [strip],
                 [split], [count]) on strings whose code points are below 256;
    - [PyFloat]  Python's [float] as the primitive binary64 floats;
    - [Binary64] rounding to binary64, restated on integers;
    - [Models]   the pydantic models [SearchResult] and [CypherQuery];
    - [Lexical]  [_lexical_score];
    - [Ranking]  the final [results.sort(key=..., reverse=True)];
    - [LruCache] [functools.lru_cache] as used on [load_FAISS];
    - [Search]   [text_to_cypher], [load_FAISS], [search_knowledgegraph]
                 and [search_documents] over explicit state and exceptions;
    - [Router]   the handler [search] of [router.py] and its history
                 list. *)

From Stdlib Require Import Bool Arith ZArith NArith Lia List.
From Stdlib Require Import Ascii String.
From Stdlib Require Import Floats.
From Stdlib Require Import Sorted Permutation.
Import ListNotations.

(* ------------------------------------------------------------------ *)
(** * Python strings *)

(** A Python [str] is a sequence of code points.  The embedding represents the
    strings whose code points lie in U+0000..U+00FF by [string]: the
    character [ascii_of_N n] stands for the code point [n].  On that range
    [str.lower] acts code point by code point and keeps the length. *)
Module PyStr.

Local Open Scope N_scope.

Definition code (c : ascii) : N := N_of_ascii c.

(** [str.isspace] on one code point: the whitespace that [strip()] and
    [split()] without argument remove. *)
Definition is_space (c : ascii) : bool :=
  let n := code c in
  ((9 <=? n) && (n <=? 13)) || ((28 <=? n) && (n <=? 31))
  || (n =? 32) || (n =? 133) || (n =? 160).

(** Upper-case code points: A-Z, and the Latin-1 capitals U+00C0..U+00DE
    without the multiplication sign U+00D7. *)
Definition is_upper (c : ascii) : bool :=
  let n := code c in
  ((65 <=? n) && (n <=? 90))
  || ((192 <=? n) && (n <=? 222) && negb (n =? 215)).

Definition lower_char (c : ascii) : ascii :=
  if is_upper c then ascii_of_N (code c + 32) else c.

(** [s.lower()] *)
Fixpoint lower (s : string) : string :=
  match s with
  | EmptyString => EmptyString
  | String c s' => String (lower_char c) (lower s')
  end.

Definition is_empty (s : string) : bool :=
  match s with EmptyString => true | String _ _ => false end.

Fixpoint lstrip (s : string) : string :=
  match s with
  | EmptyString => EmptyString
  | String c s' => if is_space c then lstrip s' else s
  end.

Fixpoint rstrip (s : string) : string :=
  match s with
  | EmptyString => EmptyString
  | String c s' =>
      let r := rstrip s' in
      if is_space c && is_empty r then EmptyString else String c r
  end.

(** [s.strip()] *)
Definition strip (s : string) : string := rstrip (lstrip s).

(** [s.split()]: the maximal runs of non-whitespace, in order.  [cur] is
    the run being read. *)
Fixpoint split_from (cur : string) (s : string) : list string :=
  match s with
  | EmptyString => if is_empty cur then [] else [cur]
  | String c s' =>
      if is_space c
      then (if is_empty cur then split_from EmptyString s'
            else cur :: split_from EmptyString s')
      else split_from (String.append cur (String c EmptyString)) s'
  end.

Definition split (s : string) : list string := split_from EmptyString s.

(** [s.startswith(sub)] *)
Fixpoint startswith (sub s : string) : bool :=
  match sub, s with
  | EmptyString, _ => true
  | String _ _, EmptyString => false
  | String a sub', String b s' => Ascii.eqb a b && startswith sub' s'
  end.

(** The scan of [s.count(sub)] for a non-empty [sub]: left to right, and
    after a match the scan resumes behind the matched text, so that the
    occurrences counted do not overlap.  [skip] is the number of characters
    of the last match still to be passed. *)
Fixpoint count_scan (sub s : string) (skip : nat) : nat :=
  match s with
  | EmptyString => 0%nat
  | String _ s' =>
      match skip with
      | S k => count_scan sub s' k
      | O =>
          if startswith sub s
          then S (count_scan sub s' (String.length sub - 1)%nat)
          else count_scan sub s' 0%nat
      end
  end.

(** [s.count(sub)]; for the empty [sub] Python answers [len(s) + 1]. *)
Definition count (s sub : string) : nat :=
  if is_empty sub then S (String.length s) else count_scan sub s 0%nat.

(** All occurrences of [sub] in [s], overlapping ones included: the number
    of positions of [s] at which [sub] starts. *)
Fixpoint occurrences (sub s : string) : nat :=
  match s with
  | EmptyString => if is_empty sub then 1%nat else 0%nat
  | String _ s' =>
      ((if startswith sub s then 1 else 0) + occurrences sub s')%nat
  end.

End PyStr.

(* ------------------------------------------------------------------ *)
(** * Exceptions *)

(** What a Python call produces: a value, or a raised exception.  The
    collaborators (embedding provider, language model, output parser) raise
    exceptions of their own, told apart by a code. *)
Inductive exn : Type :=
  | ZeroDivisionError
  | ValidationError
  | ExternalError (code : nat).

Inductive result (A : Type) : Type :=
  | Return (a : A)
  | Raise (e : exn).
Arguments Return {A} a.
Arguments Raise {A} e.

Definition is_return {A} (r : result A) : bool :=
  match r with Return _ => true | Raise _ => false end.

(* ------------------------------------------------------------------ *)
(** * Python floats *)

(** A Python [float] is an IEEE 754 binary64 number: the primitive [float]. *)
Module PyFloat.

(** [float(n)] for an [int]: the nearest binary64 number, ties to even. *)
Definition of_int (n : Z) : float :=
  SF2Prim (binary_normalize prec emax n 0 false).

(** [a / b]: true division raises when the divisor is zero. *)
Definition truediv (a b : float) : result float :=
  if (b =? 0)%float then Raise ZeroDivisionError else Return (a / b)%float.

(** No NaN: the numbers that compare with themselves. *)
Definition is_number (x : float) : bool := (x =? x)%float.

End PyFloat.

(* ------------------------------------------------------------------ *)
(** * Rounding to binary64 *)

(** The arithmetic of the primitive floats is specified on [spec_float]
    ([SFadd], [SFdiv]).  For the numbers of the score, [1 + d] and
    [1 / y], that specification is restated here on integers: a finite
    number is counted in units of [2^-1074], and rounding to nearest, ties
    to even, is a shift or a division with a remainder. *)
Module Binary64.

Local Open Scope Z_scope.

(** The choice between [q] and [q + 1] from the round bit and the sticky
    bit. *)
Definition rne (q : Z) (rb st : bool) : Z :=
  if rb then (if st then q + 1 else if Z.even q then q else q + 1) else q.

(** [n / 2^k] rounded to the nearest integer, ties to even. *)
Definition rnd_shift (n k : Z) : Z :=
  if k <=? 0 then n
  else rne (n / 2 ^ k) (Z.odd (n / 2 ^ (k - 1)))
           (negb (n mod 2 ^ (k - 1) =? 0)).

(** The number [m * 2^(k - 1074)], or infinity when the exponent is out
    of range. *)
Definition out (m k : Z) : spec_float :=
  if k - 1074 <=? 971 then S754_finite false (Z.to_pos m) (k - 1074)
  else S754_infinity false.

(** A rounded mantissa of 54 digits is [2^53]: it moves to the next
    exponent. *)
Definition norm (m k : Z) : spec_float :=
  if m =? 2 ^ 53 then out (2 ^ 52) (k + 1) else out m k.

(** The binary64 number nearest to [n * 2^-1074], for [n > 0]. *)
Definition round64 (n : Z) : spec_float :=
  let k := Z.max (Z.log2 n + 1 - 53) 0 in
  norm (rnd_shift n k) k.

(** The second half of [binary_round_aux]: the mantissa that the rounding
    may have made one digit too long is shifted once more. *)
Definition finish (q e1 : Z) : spec_float :=
  let '(mrs, e2) := shr_fexp prec emax q e1 loc_Exact in
  match shr_m mrs with
  | Z0 => S754_zero false
  | Zpos m =>
      if e2 <=? emax - prec then S754_finite false m e2
      else S754_infinity false
  | Zneg _ => S754_nan
  end.

(** The value of a finite number, counted in units of [2^-1074]. *)
Definition ival (x : spec_float) : Z :=
  match x with
  | S754_finite _ m e => Zpos m * 2 ^ (e + 1074)
  | _ => 0
  end.

(** The numbers 1.0 and the largest finite number. *)
Definition sf_one : spec_float := S754_finite false 4503599627370496 (-52).
Definition sf_max : spec_float := S754_finite false 9007199254740991 971.

(** What rounds a number not below one: infinity, or a normal number with
    an exponent from -52 on. *)
Definition from_one (y : spec_float) : Prop :=
  y = S754_infinity false
  \/ exists m e, y = S754_finite false m e
                 /\ 2 ^ 52 <= Zpos m < 2 ^ 53 /\ -52 <= e <= 971.

(** [a / b] rounded to the nearest integer, ties to even. *)
Definition rdiv (a b : Z) : Z :=
  let q := a / b in
  let r := a mod b in
  if 2 * r <? b then q
  else if b <? 2 * r then q + 1
  else if Z.even q then q else q + 1.

(** The scaling of the dividend and the exponent of the quotient when one
    is divided by a normal number of exponent [e]. *)
Definition div_shift (e : Z) : Z := Z.min 53 (1022 - e).
Definition div_exp (e : Z) : Z := Z.max (-105 - e) (-1074).

(** [1 + x] and [1 / y] on [spec_float]. *)
Definition sf_add_one (x : spec_float) : spec_float := SFadd prec emax sf_one x.
Definition sf_inv (y : spec_float) : spec_float := SFdiv prec emax sf_one y.

End Binary64.

(* ------------------------------------------------------------------ *)
(** * The lexical scorer *)

Module Lexical.
Import PyStr.

(** [_lexical_score(query, content)] *)
Definition _lexical_score (query content : string) : float :=
  let query_lower := strip (lower query) in
  if is_empty query_lower then 0%float
  else
    let terms := split query_lower in
    let content_lower := lower content in
    let score :=
      fold_left
        (fun (score : Z) (term : string) =>
           (score + Z.of_nat (count content_lower term))%Z)
        terms 0%Z in
    PyFloat.of_int score.

(** The scorer as the specification words it: zero for a query that is
    empty once normalized, else the sum over the terms of the normalized
    query of the occurrences of the term in the lower-cased content, the
    occurrences being counted by [occ]. *)
Definition reference_score (occ : string -> string -> nat)
    (query content : string) : Z :=
  let q := strip (lower query) in
  if is_empty q then 0%Z
  else Z.of_nat (list_sum (map (fun term => occ term (lower content)) (split q))).

(** The count the specification names: overlapping occurrences. *)
Definition overlapping_score : string -> string -> Z :=
  reference_score occurrences.

(** The count of [str.count]: occurrences that do not overlap, taken
    greedily from the left. *)
Definition non_overlapping_score : string -> string -> Z :=
  reference_score (fun term content => count content term).

End Lexical.

(* ------------------------------------------------------------------ *)
(** * The pydantic models of [models.py] *)

Module Models.

(** [langchain_core.documents.Document]: the text and its metadata. *)
Record Document : Type := {
  page_content : string;
  metadata : list (string * string)
}.

Definition Document_eq_dec (a b : Document) : {a = b} + {a <> b}.
Proof. repeat decide equality. Defined.

(** [class SearchResult(BaseModel)] *)
Record SearchResult : Type := {
  document : Document;
  score : float;
  reason : option string
}.

(** [class CypherQuery(BaseModel)] *)
Record CypherQuery : Type := { cypher : string }.

(** [CypherQuery.__str__] *)
Definition str (q : CypherQuery) : string := cypher q.

(** [SearchResult(document=..., score=..., reason=...)]: pydantic checks
    the constraint [ge=0] of [score] and raises when it fails. *)
Definition new_SearchResult (d : Document) (s : float) (r : option string)
  : result SearchResult :=
  if (0 <=? s)%float
  then Return {| document := d; score := s; reason := r |}
  else Raise ValidationError.

(** The constraint on [score] that every constructed [SearchResult]
    satisfies. *)
Definition valid (r : SearchResult) : Prop := (0 <=? score r)%float = true.

End Models.

(* ------------------------------------------------------------------ *)
(** * Ranking *)

Module Ranking.
Import Models.

(** [results.sort(key=lambda r: r.score, reverse=True)]: a stable sort into
    descending order of the key, comparing keys with [<] only.  On keys
    that are numbers every stable sort produces the same list; the model is
    the insertion sort. *)
Fixpoint insert_desc (r : SearchResult) (l : list SearchResult)
  : list SearchResult :=
  match l with
  | [] => [r]
  | x :: t =>
      if (score r <? score x)%float then x :: insert_desc r t
      else r :: x :: t
  end.

Definition sort_desc (l : list SearchResult) : list SearchResult :=
  fold_right insert_desc [] l.

(** [a] may stand before [b] in a descending list: [a.score >= b.score]. *)
Definition score_ge (a b : SearchResult) : Prop :=
  (score b <=? score a)%float = true.

Definition sorted_desc (l : list SearchResult) : Prop :=
  StronglySorted score_ge l.

End Ranking.

(* ------------------------------------------------------------------ *)
(** * [functools.lru_cache] *)

Module LruCache.

(** [lru_cache()] without argument bounds the cache by [maxsize=128]. *)
Definition maxsize : nat := 128.

Section Cache.
Variables (K V : Type).
Variable K_eq_dec : forall a b : K, {a = b} + {a <> b}.

(** The entries, the most recently used first. *)
Definition t : Type := list (K * V).

Fixpoint lookup (k : K) (c : t) : option V :=
  match c with
  | [] => None
  | (k', v) :: c' => if K_eq_dec k k' then Some v else lookup k c'
  end.

Fixpoint remove (k : K) (c : t) : t :=
  match c with
  | [] => []
  | (k', v) :: c' => if K_eq_dec k k' then c' else (k', v) :: remove k c'
  end.

(** A hit moves the entry to the front. *)
Definition touch (k : K) (v : V) (c : t) : t := (k, v) :: remove k c.

(** A miss stores the new entry; a full cache first loses its oldest
    entry, the last of the list. *)
Definition store (k : K) (v : V) (c : t) : t :=
  if maxsize <=? List.length c then (k, v) :: removelast c else (k, v) :: c.

End Cache.

Arguments lookup {K V} K_eq_dec k c.
Arguments remove {K V} K_eq_dec k c.
Arguments touch {K V} K_eq_dec k v c.
Arguments store {K V} k v c.

End LruCache.

(* ------------------------------------------------------------------ *)
(** * The collaborators *)

(** The libraries the module calls into: the embedding provider and FAISS,
    the OpenAI client and the pydantic output parser.  Each call may
    raise; the calls that reach a provider also act on the outside world. *)
Record Collaborators : Type := {
  World : Type;
  Embeddings : Type;
  Store : Type;
  Llm : Type;
  Parser : Type;
  (** [OpenAIEmbeddings()] *)
  new_OpenAIEmbeddings : World -> result Embeddings * World;
  (** [FAISS.from_documents(documents, embeddings)] *)
  FAISS_from_documents :
    list Models.Document -> Embeddings -> World -> result Store * World;
  (** [store.similarity_search_with_score(query, k=k)] *)
  similarity_search_with_score :
    Store -> string -> nat -> World ->
    result (list (Models.Document * float)) * World;
  (** [OpenAI()] *)
  new_OpenAI : World -> result Llm * World;
  (** [PydanticOutputParser(pydantic_object=CypherQuery)] *)
  new_PydanticOutputParser : result Parser;
  (** [parser.schema], as the text spliced into the prompt *)
  parser_schema : Parser -> result string;
  (** [await llm.apredict(prompt)] *)
  apredict : Llm -> string -> World -> result string * World;
  (** [parser.parse(raw)] *)
  parse : Parser -> string -> result Models.CypherQuery
}.

(* ------------------------------------------------------------------ *)
(** * The module [integrations.py] *)

Module Search.
Import Models.

(** The calls a run makes, for the record of what was invoked. *)
Inductive Event : Type :=
  | CallLoadFAISS (documents : list Document)
  | CallOpenAIEmbeddings
  | CallFromDocuments (documents : list Document)
  | CallSimilaritySearch (query : string) (k : nat)
  | CallTextToCypher (text : string)
  | CallOpenAI
  | CallOutputParser
  | CallSchema
  | CallPredict (prompt : string)
  | CallParse (raw : string)
  | CallSearchKnowledgegraph (q : CypherQuery).

Section WithCollaborators.
Variable C : Collaborators.

(** A FAISS object of the process: the store and the identity of the
    object ([is] compares [oid]). *)
Record Index : Type := { oid : nat; store : Store C }.

(** The process: the outside world, the memo table of [load_FAISS], the
    number of objects built so far, and the calls made, the latest first. *)
Record State : Type := {
  world : World C;
  cache : LruCache.t (list Document) Index;
  built : nat;
  trace : list Event
}.

(** Computations of the module: state passing, with exceptions. *)
Definition M (A : Type) : Type := State -> result A * State.

Definition ret {A} (a : A) : M A := fun s => (Return a, s).

Definition raise {A} (e : exn) : M A := fun s => (Raise e, s).

Definition bind {A B} (m : M A) (k : A -> M B) : M B :=
  fun s =>
    match m s with
    | (Return a, s') => k a s'
    | (Raise e, s') => (Raise e, s')
    end.

(** [try: body  except Exception: handler] *)
Definition try_except {A} (body : M A) (handler : exn -> M A) : M A :=
  fun s =>
    match body s with
    | (Return a, s') => (Return a, s')
    | (Raise e, s') => handler e s'
    end.

Definition lift {A} (r : result A) : M A := fun s => (r, s).

Definition log (e : Event) : M unit :=
  fun s => (Return tt,
            {| world := world s; cache := cache s; built := built s;
               trace := e :: trace s |}).

(** A call that acts on the outside world. *)
Definition outside {A} (f : World C -> result A * World C) : M A :=
  fun s =>
    let (r, w) := f (world s) in
    (r, {| world := w; cache := cache s; built := built s;
           trace := trace s |}).

Definition get_cache : M (LruCache.t (list Document) Index) :=
  fun s => (Return (cache s), s).

Definition set_cache (c : LruCache.t (list Document) Index) : M unit :=
  fun s => (Return tt,
            {| world := world s; cache := c; built := built s;
               trace := trace s |}).

(** A new object: the next identity. *)
Definition new_Index (st : Store C) : M Index :=
  fun s => (Return {| oid := built s; store := st |},
            {| world := world s; cache := cache s; built := S (built s);
               trace := trace s |}).

Notation "x <- m ;; k" := (bind m (fun x => k))
  (at level 61, m at next level, right associativity).
Notation "m ;;; k" := (bind m (fun _ => k))
  (at level 61, right associativity).

Definition nl : string := String (ascii_of_nat 10) EmptyString.

(** The prompt of [text_to_cypher] around the schema text. *)
Definition prompt_of (schema text : string) : string :=
  ("Convert the following natural-language query to a Cypher query. "
   ++ "Return your answer as JSON matching this schema:" ++ nl
   ++ schema ++ nl ++ nl ++ "Input: " ++ text)%string.

(** [async def text_to_cypher(text)] *)
Definition text_to_cypher (text : string) : M (option CypherQuery) :=
  log (CallTextToCypher text) ;;;
  log CallOpenAI ;;;
  llm <- outside (new_OpenAI C) ;;
  log CallOutputParser ;;;
  parser <- lift (new_PydanticOutputParser C) ;;
  log CallSchema ;;;
  schema <- lift (parser_schema C parser) ;;
  let prompt := prompt_of schema text in
  try_except
    (log (CallPredict prompt) ;;;
     raw <- outside (apredict C llm prompt) ;;
     log (CallParse raw) ;;;
     parsed <- lift (parse C parser raw) ;;
     ret (Some parsed))
    (fun _ => ret None).

(** The body of [load_FAISS], without the decorator. *)
Definition load_FAISS_wrapped (documents : list Document) : M Index :=
  log CallOpenAIEmbeddings ;;;
  embeddings <- outside (new_OpenAIEmbeddings C) ;;
  log (CallFromDocuments documents) ;;;
  st <- outside (FAISS_from_documents C documents embeddings) ;;
  new_Index st.

Definition docs_eq_dec : forall a b : list Document, {a = b} + {a <> b} :=
  list_eq_dec Document_eq_dec.

(** [@lru_cache() def load_FAISS(documents)]: a hit returns the stored
    object and makes its entry the most recent; a miss runs the body and
    stores what it returns, and stores nothing when it raises.  The key is
    [tuple(documents)]: two keys are the same when the sequences are equal,
    document by document, in the same order. *)
Definition load_FAISS (documents : list Document) : M Index :=
  log (CallLoadFAISS documents) ;;;
  c <- get_cache ;;
  match LruCache.lookup docs_eq_dec documents c with
  | Some ix =>
      set_cache (LruCache.touch docs_eq_dec documents ix c) ;;;
      ret ix
  | None =>
      ix <- load_FAISS_wrapped documents ;;
      c' <- get_cache ;;
      set_cache (LruCache.store documents ix c') ;;;
      ret ix
  end.

(** The literal [0.9]. *)
Definition graph_score : float := 0x1.ccccccccccccdp-1%float.

(** [def search_knowledgegraph(cypher_query)] *)
Definition search_knowledgegraph (cypher_query : CypherQuery)
  : M (list SearchResult) :=
  log (CallSearchKnowledgegraph cypher_query) ;;;
  r <- lift (new_SearchResult
               {| page_content := str cypher_query; metadata := [] |}
               graph_score (Some "test"%string)) ;;
  ret [r].

(** [1.0 / (1 + distance)], the distance being a [float] *)
Definition vector_score (distance : float) : result float :=
  PyFloat.truediv 1 (1 + distance).

(** One turn of the loop over the hits. *)
Definition vector_result (doc : Document) (distance : float)
  : result SearchResult :=
  match vector_score distance with
  | Return s => new_SearchResult doc s None
  | Raise e => Raise e
  end.

(** [for doc, distance in faiss_hits: results.append(...)] *)
Fixpoint vector_results (faiss_hits : list (Document * float))
    (results : list SearchResult) : result (list SearchResult) :=
  match faiss_hits with
  | [] => Return results
  | (doc, distance) :: rest =>
      match vector_result doc distance with
      | Return r => vector_results rest (results ++ [r])
      | Raise e => Raise e
      end
  end.

(** [search_documents] behind its guard on the empty query. *)
Definition search_nonempty (query : string) (documents : list Document)
  : M (list SearchResult) :=
  ix <- load_FAISS documents ;;
  log (CallSimilaritySearch query (List.length documents)) ;;;
  faiss_hits <-
    outside (similarity_search_with_score C (store ix) query
               (List.length documents)) ;;
  results <- lift (vector_results faiss_hits []) ;;
  cypher_obj <- text_to_cypher query ;;
  results <-
    match cypher_obj with
    | Some q => g <- search_knowledgegraph q ;; ret (results ++ g)
    | None => ret results
    end ;;
  ret (Ranking.sort_desc results).

(** [async def search_documents(query, documents)] *)
Definition search_documents (query : string) (documents : list Document)
  : M (list SearchResult) :=
  if PyStr.is_empty query then ret []
  else search_nonempty query documents.

(** The two halves of [search_nonempty], for the statements: the vector
    path (index, similarity search, one result per hit) ... *)
Definition vector_path (query : string) (documents : list Document)
  : M (list SearchResult) :=
  ix <- load_FAISS documents ;;
  log (CallSimilaritySearch query (List.length documents)) ;;;
  faiss_hits <-
    outside (similarity_search_with_score C (store ix) query
               (List.length documents)) ;;
  lift (vector_results faiss_hits []).

(** ... and the graph path with the final sort. *)
Definition augment (query : string) (results : list SearchResult)
  : M (list SearchResult) :=
  cypher_obj <- text_to_cypher query ;;
  results <-
    match cypher_obj with
    | Some q => g <- search_knowledgegraph q ;; ret (results ++ g)
    | None => ret results
    end ;;
  ret (Ranking.sort_desc results).

(** The result that [search_knowledgegraph] builds. *)
Definition graph_result (q : CypherQuery) : SearchResult :=
  {| document := {| page_content := str q; metadata := [] |};
     score := graph_score; reason := Some "test"%string |}.

(** How a result stems from a hit: the document of the hit, the score
    computed from its distance, and no reason. *)
Definition of_hit (h : Document * float) (r : SearchResult) : Prop :=
  document r = fst h
  /\ vector_score (snd h) = Return (score r)
  /\ reason r = None.

(** The graph results that a translation outcome contributes. *)
Definition graph_hits (cy : option CypherQuery) : list SearchResult :=
  match cy with Some q => [graph_result q] | None => [] end.

(** A computation only adds to the record of calls. *)
Definition grows {A} (m : M A) : Prop :=
  forall s, exists evs, trace (snd (m s)) = evs ++ trace s.

(** The documents have an entry in the memo table of [load_FAISS]. *)
Definition cached (documents : list Document) (s : State) : bool :=
  match LruCache.lookup docs_eq_dec documents (cache s) with
  | Some _ => true
  | None => false
  end.

(** The state after one more call was recorded. *)
Definition logged (e : Event) (s : State) : State :=
  {| world := world s; cache := cache s; built := built s;
     trace := e :: trace s |}.

End WithCollaborators.

Arguments oid {C} i.
Arguments store {C} i.
Arguments world {C} s.
Arguments cache {C} s.
Arguments built {C} s.
Arguments trace {C} s.
Arguments ret {C A} a s.
Arguments raise {C A} e s.
Arguments bind {C A B} m k s.
Arguments try_except {C A} body handler s.
Arguments lift {C A} r s.
Arguments log {C} e s.
Arguments logged {C} e s.
Arguments outside {C A} f s.
Arguments grows C {A} m.
Arguments cached {C} documents s.

End Search.

(* ------------------------------------------------------------------ *)
(** * Scripted collaborators *)

(** Test doubles: collaborators that answer from a script. *)
Module Scripted.
Import Models.

Record Script : Type := {
  embeddings_up : bool;
  build_up : bool;
  hits : list (Document * float);
  openai_up : bool;
  schema_up : bool;
  reply : result string;
  parsed : result CypherQuery
}.

Definition collaborators (sc : Script) : Collaborators := {|
  World := unit;
  Embeddings := unit;
  Store := list Document;
  Llm := unit;
  Parser := unit;
  new_OpenAIEmbeddings := fun w =>
    (if embeddings_up sc then Return tt else Raise (ExternalError 1), w);
  FAISS_from_documents := fun docs _ w =>
    (if build_up sc then Return docs else Raise (ExternalError 2), w);
  similarity_search_with_score := fun _ _ k w =>
    (Return (firstn k (hits sc)), w);
  new_OpenAI := fun w =>
    (if openai_up sc then Return tt else Raise (ExternalError 3), w);
  new_PydanticOutputParser := Return tt;
  parser_schema := fun _ =>
    if schema_up sc then Return "{}"%string else Raise (ExternalError 4);
  apredict := fun _ _ w => (reply sc, w);
  parse := fun _ _ => parsed sc
|}.

(** A process that has not run anything yet. *)
Definition fresh (sc : Script) : Search.State (collaborators sc) :=
  Search.Build_State (collaborators sc) tt [] 0 [].

Definition doc (text : string) : Document :=
  {| page_content := text; metadata := [] |}.

(** The corpus of [n + 1] copies of one document: a different sequence
    for every [n]. *)
Definition corpus (n : nat) : list Document := repeat (doc "d") (S n).

(** Two documents at the distances 0.0 and 1.0. *)
Definition two_hits : list (Document * float) :=
  [(doc "near", 0%float); (doc "far", 1%float)].

(** Everything works, and the model answers a query that parses. *)
Definition all_up : Script := {|
  embeddings_up := true; build_up := true; hits := two_hits;
  openai_up := true; schema_up := true;
  reply := Return "{}"%string;
  parsed := Return {| cypher := "MATCH (n) RETURN n" |}
|}.

(** No API key: the embedding provider works, [OpenAI()] raises. *)
Definition no_api_key : Script := {|
  embeddings_up := true; build_up := true; hits := two_hits;
  openai_up := false; schema_up := true;
  reply := Return "{}"%string;
  parsed := Return {| cypher := "MATCH (n) RETURN n" |}
|}.

(** The model call fails. *)
Definition model_down : Script := {|
  embeddings_up := true; build_up := true; hits := two_hits;
  openai_up := true; schema_up := true;
  reply := Raise (ExternalError 5);
  parsed := Raise (ExternalError 6)
|}.

(** The embedding provider fails. *)
Definition embeddings_down : Script := {|
  embeddings_up := false; build_up := true; hits := two_hits;
  openai_up := true; schema_up := true;
  reply := Return "{}"%string;
  parsed := Return {| cypher := "MATCH (n) RETURN n" |}
|}.

(** The two documents of the runs below. *)
Definition docs : list Document := [doc "near"; doc "far"].

(** The process after [load_FAISS] ran on the corpora [0 .. n-1]. *)
Definition after_corpora (n : nat) : Search.State (collaborators all_up) :=
  fold_left
    (fun s k => snd (Search.load_FAISS (collaborators all_up) (corpus k) s))
    (seq 0 n) (fresh all_up).

End Scripted.

(* ------------------------------------------------------------------ *)
(** * The scorer, step by step *)

(** The values that [_lexical_score] computes on its way, and the
    relation [sub in s] of Python strings. *)
Module LexicalSteps.
Import PyStr.

(** [sub in s]: [sub] is a substring of [s]. *)
Definition contains (s sub : string) : Prop :=
  exists pre suf, s = String.append pre (String.append sub suf).

(** The list [terms] of the scorer, empty when the normalized query is
    empty. *)
Definition terms (query : string) : list string :=
  split (strip (lower query)).

(** The [int] that the loop of the scorer leaves in [score]. *)
Definition count_sum (query content : string) : Z :=
  fold_left
    (fun (score : Z) (term : string) =>
       (score + Z.of_nat (count (lower content) term))%Z)
    (terms query) 0%Z.

End LexicalSteps.

(* ------------------------------------------------------------------ *)
(** * The protected part of the translator *)

Module SearchSteps.
Import Models Search.

Section WithCollaborators.
Variable C : Collaborators.

(** The [try] of [text_to_cypher]: the model call and the parse, with
    [None] for an exception of either. *)
Definition translation (llm : Llm C) (parser : Parser C) (prompt : string)
    (w : World C) : option CypherQuery :=
  match apredict C llm prompt w with
  | (Return raw, _) =>
      match parse C parser raw with
      | Return q => Some q
      | Raise _ => None
      end
  | (Raise _, _) => None
  end.

End WithCollaborators.

Arguments translation {C} llm parser prompt w.

End SearchSteps.

(* ------------------------------------------------------------------ *)
(** * More scripted collaborators *)

Module ScriptedMore.
Import Models Scripted.

(** The index is built, and the similarity search fails. *)
Definition search_down : Collaborators := {|
  World := unit;
  Embeddings := unit;
  Store := list Document;
  Llm := unit;
  Parser := unit;
  new_OpenAIEmbeddings := fun w => (Return tt, w);
  FAISS_from_documents := fun docs _ w => (Return docs, w);
  similarity_search_with_score := fun _ _ _ w => (Raise (ExternalError 7), w);
  new_OpenAI := fun w => (Return tt, w);
  new_PydanticOutputParser := Return tt;
  parser_schema := fun _ => Return "{}"%string;
  apredict := fun _ _ w => (Return "{}"%string, w);
  parse := fun _ _ => Return {| cypher := "MATCH (n) RETURN n" |}
|}.

Definition fresh_search_down : Search.State search_down :=
  Search.Build_State search_down tt [] 0 [].

End ScriptedMore.

(* ------------------------------------------------------------------ *)
(** * The route handler *)

(** [router.py]: the handler [search] of [POST /search], over the state of
    the integrations and the module-level list [SEARCH_HISTORY].
    [DOCUMENTS] is the collection the router imports; [datetime.utcnow()]
    reads the clock of the world. *)
Module Router.
Import Models Search.

(** What leaves the handler: the [HTTPException] it raises, the
    [TypeError] of a call whose arguments do not fit the signature, or an
    exception of the integrations. *)
Inductive HandlerError : Type :=
  | HTTPException (status_code : Z) (detail : string)
  | TypeError
  | Uncaught (e : exn).

Inductive outcome (A : Type) : Type :=
  | Done (a : A)
  | Failed (e : HandlerError).

Arguments Done {A} a.
Arguments Failed {A} e.

(** [SearchRequest]: [query] with [min_length=1], [top_k] with [ge=1] and
    [le=50]. *)
Record SearchRequest : Type := { query : string; top_k : Z }.

(** The signature of [search_documents] in [integrations.py]:
    [(query, documents)], no default, no [*args], no [**kwargs]. *)
Definition search_documents_params : list string :=
  ["query"; "documents"]%string.

(** Python binds the arguments of a call before the body runs.  For a
    function whose parameters are [params], none with a default, called
    with [positional] positional arguments and the keyword arguments
    [keywords]: the positional ones take the first parameters, every
    keyword must name one of the others, and each of the others must be
    named.  Otherwise the call raises [TypeError]. *)
Definition binds (params : list string) (positional : nat)
    (keywords : list string) : bool :=
  (positional <=? List.length params)%nat
  && forallb (fun k => existsb (String.eqb k) (skipn positional params))
       keywords
  && forallb (fun p => existsb (String.eqb p) keywords)
       (skipn positional params).

Section WithApp.
Variable C : Collaborators.
Variable DOCUMENTS : list Document.
Variable datetime : Type.
Variable utcnow : World C -> datetime.

(** [SearchEntry]: [query] with [min_length=1], and the time stamp. *)
Record SearchEntry : Type := { entry_query : string; timestamp : datetime }.

Definition new_SearchEntry (q : string) (t : datetime) : outcome SearchEntry :=
  if PyStr.is_empty q then Failed (Uncaught ValidationError)
  else Done {| entry_query := q; timestamp := t |}.

(** The state of the application: that of the integrations, and the
    history list. *)
Record App : Type := {
  engine : State C;
  SEARCH_HISTORY : list SearchEntry
}.

Definition H (A : Type) : Type := App -> outcome A * App.

(** A call of a function with the parameters [params]. *)
Definition call {A : Type} (params : list string) (positional : nat)
    (keywords : list string) (body : H A) : H A :=
  fun app =>
    if binds params positional keywords then body app
    else (Failed TypeError, app).

(** The body of [search_documents], run on the state of the
    integrations. *)
Definition run_search_documents (query : string) : H (list SearchResult) :=
  fun app =>
    match search_documents C query DOCUMENTS (engine app) with
    | (Return results, s) =>
        (Done results,
         {| engine := s; SEARCH_HISTORY := SEARCH_HISTORY app |})
    | (Raise e, s) =>
        (Failed (Uncaught e),
         {| engine := s; SEARCH_HISTORY := SEARCH_HISTORY app |})
    end.

(** [search(request)] *)
Definition search (request : SearchRequest) : H (list SearchResult) :=
  fun app =>
    let query := PyStr.strip (query request) in
    if PyStr.is_empty query
    then (Failed (HTTPException 400 "Query must not be empty."), app)
    else
      match new_SearchEntry query (utcnow (world (engine app))) with
      | Failed e => (Failed e, app)
      | Done entry =>
          call search_documents_params 2 ["top_k"%string]
            (run_search_documents query)
            {| engine := engine app;
               SEARCH_HISTORY := SEARCH_HISTORY app ++ [entry] |}
      end.

(** The handler on successive requests; what a request raises or returns
    goes to its client. *)
Definition serve (requests : list SearchRequest) (app : App) : App :=
  fold_left (fun a request => snd (search request a)) requests app.

(** An entry as the handler writes it: the query is not empty and has no
    whitespace at either end. *)
Definition stripped_entry (e : SearchEntry) : Prop :=
  PyStr.is_empty (entry_query e) = false
  /\ PyStr.strip (entry_query e) = entry_query e.

End WithApp.

Arguments entry_query {datetime} s.
Arguments timestamp {datetime} s.
Arguments Build_SearchEntry {datetime} entry_query timestamp.
Arguments engine {C datetime} a.
Arguments SEARCH_HISTORY {C datetime} a.
Arguments Build_App {C datetime} engine SEARCH_HISTORY.
Arguments stripped_entry {datetime} e.

End Router.

(* ================================================================== *)
(** * Properties *)

(* ------------------------------------------------------------------ *)
(** ** Strings *)

Module PyStrFacts.
Import PyStr.

Lemma lower_char_idempotent (c : ascii) :
  lower_char (lower_char c) = lower_char c.
Proof. destruct c as [[] [] [] [] [] [] [] []]; reflexivity. Qed.

Lemma lower_idempotent (s : string) : lower (lower s) = lower s.
Proof.
  induction s as [|c s IH]; simpl; [reflexivity|].
  now rewrite lower_char_idempotent, IH.
Qed.

Lemma lower_length (s : string) : String.length (lower s) = String.length s.
Proof. induction s as [|c s IH]; simpl; congruence. Qed.

Lemma is_empty_true (s : string) : is_empty s = true -> s = EmptyString.
Proof. destruct s; simpl; congruence. Qed.

Lemma is_empty_append (a b : string) :
  is_empty b = false -> is_empty (String.append a b) = false.
Proof. destruct a; simpl; auto. Qed.

(** [split()] never yields an empty term. *)
Lemma split_from_nonempty (s : string) :
  forall cur t, In t (split_from cur s) -> is_empty t = false.
Proof.
  induction s as [|c s IH]; simpl; intros cur t Hin.
  - destruct (is_empty cur) eqn:E; simpl in Hin.
    + contradiction.
    + destruct Hin as [<-|[]]; exact E.
  - destruct (is_space c).
    + destruct (is_empty cur) eqn:E.
      * eapply IH; eassumption.
      * destruct Hin as [<-|Hin]; [exact E | eapply IH; eassumption].
    + eapply IH; eassumption.
Qed.

Lemma split_nonempty (s t : string) : In t (split s) -> is_empty t = false.
Proof. apply split_from_nonempty. Qed.

(** Nothing occurs in the empty text. *)
Lemma count_in_empty (sub : string) :
  is_empty sub = false -> count EmptyString sub = 0.
Proof. unfold count; intros ->; reflexivity. Qed.

(** [startswith] against the text itself: a match is no longer than the
    text. *)
Lemma startswith_length (sub s : string) :
  startswith sub s = true -> String.length sub <= String.length s.
Proof.
  revert s; induction sub as [|a sub IH]; intros [|b s]; simpl; intros H;
    try lia; try discriminate.
  apply andb_true_iff in H as [_ H]; apply IH in H; lia.
Qed.

(** The scan that skips counts no more than the positions that match. *)
Lemma count_scan_le_occurrences (sub s : string) :
  is_empty sub = false ->
  forall skip, count_scan sub s skip <= occurrences sub s.
Proof.
  intros Hsub; induction s as [|c s IH]; intros skip; simpl.
  - lia.
  - destruct skip as [|k].
    + destruct (startswith sub (String c s)).
      * specialize (IH (String.length sub - 1)); lia.
      * exact (IH 0).
    + specialize (IH k); lia.
Qed.

Lemma count_le_occurrences (sub s : string) :
  is_empty sub = false -> count s sub <= occurrences sub s.
Proof.
  intros H; unfold count; rewrite H; now apply count_scan_le_occurrences.
Qed.

End PyStrFacts.

(* ------------------------------------------------------------------ *)
(** ** The lexical scorer *)

Module LexicalFacts.
Import PyStr PyStrFacts Lexical.
Local Open Scope string_scope.

Lemma of_int_0 : PyFloat.of_int 0 = 0%float.
Proof. reflexivity. Qed.

(** The loop of the scorer adds up the counts. *)
Lemma fold_counts (f : string -> nat) (terms : list string) :
  forall acc : Z,
    fold_left (fun (score : Z) (term : string) =>
                 (score + Z.of_nat (f term))%Z) terms acc
    = (acc + Z.of_nat (list_sum (map f terms)))%Z.
Proof.
  induction terms as [|t terms IH]; intros acc; simpl.
  - lia.
  - rewrite IH; lia.
Qed.

Lemma lexical_score_refines (query content : string) :
  _lexical_score query content
  = PyFloat.of_int (non_overlapping_score query content).
Proof.
  unfold _lexical_score, non_overlapping_score, reference_score.
  destruct (is_empty (strip (lower query))); [reflexivity|].
  now rewrite fold_counts.
Qed.

Lemma sum_zero {A} (f : A -> nat) (l : list A) :
  (forall x, In x l -> f x = 0) -> list_sum (map f l) = 0.
Proof.
  induction l as [|x l IH]; simpl; intros H; [reflexivity|].
  rewrite (H x), IH by auto; auto.
Qed.

Lemma lexical_score_empty_content (query : string) :
  _lexical_score query "" = 0%float.
Proof.
  rewrite lexical_score_refines.
  unfold non_overlapping_score, reference_score.
  destruct (is_empty (strip (lower query))); [reflexivity|].
  rewrite sum_zero; [reflexivity|].
  intros t Ht; apply count_in_empty; eapply split_nonempty; eassumption.
Qed.

(** C2 (amended).  The lexical scorer equals the reference definition
    that counts occurrences the way [str.count] does: the score is the
    float of 0 when the query is empty after lower-casing and trimming, and
    otherwise of the sum, over the whitespace-split terms of the normalized
    query, of the number of non-overlapping occurrences of the term in the
    lower-cased content.  In particular the score of the empty query is 0
    for every content, the score against the empty content is 0 for every
    query, and the score of "aa" in "aaaa" is 2. *)
Theorem lexical_score_counts_non_overlapping :
  (forall query content,
     _lexical_score query content
     = PyFloat.of_int (non_overlapping_score query content))
  /\ (forall query content,
        is_empty (strip (lower query)) = true ->
        _lexical_score query content = 0%float)
  /\ (forall content, _lexical_score "" content = 0%float)
  /\ (forall query, _lexical_score query "" = 0%float)
  /\ _lexical_score "aa" "aaaa" = 2%float.
Proof.
  split; [exact lexical_score_refines|].
  split; [intros query content H; unfold _lexical_score; now rewrite H|].
  split; [reflexivity|].
  split; [exact lexical_score_empty_content|].
  reflexivity.
Qed.

(** C2, as stated, fails on "aa" in "aaaa": the scorer answers 2, the
    reference definition with overlapping occurrences answers 3. *)
Lemma lexical_score_overlapping_counterexample :
  _lexical_score "aa" "aaaa" = 2%float
  /\ PyFloat.of_int (overlapping_score "aa" "aaaa") = 3%float
  /\ (_lexical_score "aa" "aaaa" =? 3)%float = false
  /\ ~ (forall query content,
          _lexical_score query content
          = PyFloat.of_int (overlapping_score query content)).
Proof.
  repeat split; try reflexivity.
  intros H; specialize (H "aa" "aaaa").
  apply (f_equal Prim2SF) in H; vm_compute in H; discriminate.
Qed.

(** C9.  The scorer is case-insensitive: the score of a query against a
    content is the score of the lower-cased query against the lower-cased
    content; in particular "Cat" scores against "The CAT sat" as "cat"
    against "the cat sat". *)
Theorem lexical_score_case_insensitive :
  (forall query content,
     _lexical_score query content
     = _lexical_score (lower query) (lower content))
  /\ _lexical_score "Cat" "The CAT sat" = _lexical_score "cat" "the cat sat".
Proof.
  split; [|reflexivity].
  intros query content; unfold _lexical_score.
  now rewrite !lower_idempotent.
Qed.

End LexicalFacts.

(* ------------------------------------------------------------------ *)
(** ** The order of floats *)

Module PyFloatFacts.
Import PyFloat.

(** The comparison of [SpecFloat], which the primitive comparisons follow,
    is a total preorder away from NaN. *)
Section SpecOrder.

Ltac cases_cmp :=
  repeat match goal with
  | |- context [Z.compare ?a ?b] => destruct (Z.compare_spec a b)
  | |- context [Pos.compare_cont Eq ?a ?b] =>
      change (Pos.compare_cont Eq a b) with (Pos.compare a b);
      destruct (Pos.compare_spec a b)
  end.

Ltac by_cases :=
  simpl; try discriminate; try reflexivity; cases_cmp; simpl;
  intros; subst; try discriminate; try reflexivity; try lia.

Lemma SFleb_trans (x y z : spec_float) :
  SFleb x y = true -> SFleb y z = true -> SFleb x z = true.
Proof.
  unfold SFleb, SFcompare.
  destruct x as [[]|[]| |[] mx ex]; destruct y as [[]|[]| |[] my ey];
    try (simpl; discriminate);
    destruct z as [[]|[]| |[] mz ez]; by_cases.
Qed.

Lemma SFltb_false_SFleb (x y : spec_float) :
  SFeqb x x = true -> SFeqb y y = true ->
  SFltb x y = false -> SFleb y x = true.
Proof.
  unfold SFeqb, SFltb, SFleb, SFcompare.
  destruct x as [[]|[]| |[] mx ex]; destruct y as [[]|[]| |[] my ey];
    by_cases.
Qed.

Lemma SFleb_number_r (x y : spec_float) : SFleb x y = true -> SFeqb y y = true.
Proof.
  unfold SFeqb, SFleb, SFcompare.
  destruct x as [[]|[]| |[] mx ex]; destruct y as [[]|[]| |[] my ey];
    simpl; try discriminate; try reflexivity; intros _;
    rewrite ?Z.compare_refl;
    change (Pos.compare_cont Eq my my) with (Pos.compare my my);
    rewrite ?Pos.compare_refl; reflexivity.
Qed.

End SpecOrder.

Lemma leb_trans (x y z : float) :
  (x <=? y)%float = true -> (y <=? z)%float = true -> (x <=? z)%float = true.
Proof. rewrite !leb_spec; apply SFleb_trans. Qed.

Lemma ltb_false_leb (x y : float) :
  is_number x = true -> is_number y = true ->
  (x <? y)%float = false -> (y <=? x)%float = true.
Proof.
  unfold is_number; rewrite !eqb_spec, ltb_spec, leb_spec.
  apply SFltb_false_SFleb.
Qed.

Lemma ltb_leb (x y : float) :
  (x <? y)%float = true -> (x <=? y)%float = true.
Proof.
  rewrite ltb_spec, leb_spec; unfold SFltb, SFleb.
  now destruct (SFcompare (Prim2SF x) (Prim2SF y)) as [[]|].
Qed.

Lemma leb_is_number (x y : float) :
  (x <=? y)%float = true -> is_number y = true.
Proof. unfold is_number; rewrite leb_spec, eqb_spec; apply SFleb_number_r. Qed.

End PyFloatFacts.

(* ------------------------------------------------------------------ *)
(** ** Rounding to binary64 *)

Module Binary64Facts.
Import Binary64.
Local Open Scope Z_scope.

Lemma digits2_size p : digits2_pos p = Pos.size p.
Proof. induction p; simpl; congruence. Qed.

Lemma digits2_log2 p : Zpos (digits2_pos p) = Z.log2 (Zpos p) + 1.
Proof.
  rewrite digits2_size; destruct p; simpl; lia.
Qed.

Lemma Zdigits2_log2 n : 0 < n -> Zdigits2 n = Z.log2 n + 1.
Proof. destruct n; try lia; intros _; apply digits2_log2. Qed.

Lemma shr_1_spec m r s :
  0 <= m ->
  shr_1 (Build_shr_record m r s)
  = Build_shr_record (m / 2) (Z.odd m) (r || s).
Proof.
  intros Hm; destruct m as [|p|p]; [reflexivity| |lia].
  destruct p as [p|p|]; simpl shr_1; f_equal.
  - rewrite Pos2Z.inj_xI; apply Z.div_unique with 1; lia.
  - rewrite Pos2Z.inj_xO; apply Z.div_unique with 0; lia.
Qed.

Lemma iter_pos_nat {A} (f : A -> A) p :
  forall x, iter_pos f p x = Nat.iter (Pos.to_nat p) f x.
Proof.
  induction p as [p IH|p IH|]; intros x; simpl iter_pos.
  - rewrite !IH, Pos2Nat.inj_xI.
    replace (S (2 * Pos.to_nat p))%nat
      with (Pos.to_nat p + S (Pos.to_nat p))%nat by lia.
    rewrite Nat.iter_add. f_equal. now rewrite Nat.iter_succ_r.
  - rewrite !IH, Pos2Nat.inj_xO.
    replace (2 * Pos.to_nat p)%nat
      with (Pos.to_nat p + Pos.to_nat p)%nat by lia.
    now rewrite Nat.iter_add.
  - reflexivity.
Qed.

Lemma mod_pow2_succ m k :
  0 <= k ->
  m mod 2 ^ (k + 1) = m mod 2 ^ k + 2 ^ k * ((m / 2 ^ k) mod 2).
Proof.
  intros Hk. rewrite Z.pow_add_r, Z.pow_1_r by lia.
  apply Z.rem_mul_r; [|lia].
  apply Z.pow_nonzero; lia.
Qed.

Lemma iter_shr_1 (n : nat) m :
  0 <= m ->
  Nat.iter (S n) shr_1 (Build_shr_record m false false)
  = Build_shr_record (m / 2 ^ Z.of_nat (S n))
      (Z.odd (m / 2 ^ Z.of_nat n))
      (negb (m mod 2 ^ Z.of_nat n =? 0)).
Proof.
  intros Hm; induction n as [|n IH].
  - change (Nat.iter 1 shr_1 ?x) with (shr_1 x).
    rewrite shr_1_spec by assumption.
    change (2 ^ Z.of_nat 0) with 1; change (2 ^ Z.of_nat 1) with 2.
    now rewrite Z.div_1_r, Z.mod_1_r.
  - rewrite Nat.iter_succ, IH.
    assert (Hp : 0 < 2 ^ Z.of_nat n) by (apply Z.pow_pos_nonneg; lia).
    assert (Hp' : 0 < 2 ^ Z.of_nat (S n)) by (apply Z.pow_pos_nonneg; lia).
    rewrite shr_1_spec by (apply Z.div_pos; lia).
    f_equal.
    + rewrite Z.div_div by lia.
      f_equal. rewrite (Nat2Z.inj_succ (S n)), Z.pow_succ_r by lia. lia.
    + rewrite (Nat2Z.inj_succ n), <- Z.add_1_r.
      rewrite mod_pow2_succ by lia.
      pose proof (Z.mod_pos_bound m (2 ^ Z.of_nat n) Hp) as Hb.
      rewrite Zmod_odd.
      destruct (Z.odd (m / 2 ^ Z.of_nat n)); simpl.
      * symmetry; apply negb_true_iff, Z.eqb_neq; lia.
      * f_equal. f_equal. lia.
Qed.

Lemma fexp_eq x : fexp prec emax x = Z.max (x - 53) (-1074).
Proof. reflexivity. Qed.

Lemma shr_exact m e n :
  0 <= m -> 0 < n ->
  shr (Build_shr_record m false false) e n
  = (Build_shr_record (m / 2 ^ n) (Z.odd (m / 2 ^ (n - 1)))
       (negb (m mod 2 ^ (n - 1) =? 0)), e + n).
Proof.
  intros Hm Hn; destruct n as [|p|p]; try lia.
  unfold shr; f_equal.
  rewrite iter_pos_nat.
  destruct (Pos2Nat.is_succ p) as [k Hk]; rewrite Hk, iter_shr_1 by assumption.
  assert (Z.of_nat (S k) = Z.pos p) by lia.
  assert (Z.of_nat k = Z.pos p - 1) by lia.
  congruence.
Qed.

Lemma round_of_record mrs :
  round_nearest_even (shr_m mrs) (loc_of_shr_record mrs)
  = rne (shr_m mrs) (shr_r mrs) (shr_s mrs).
Proof. destruct mrs as [m [] []]; reflexivity. Qed.

(** The first shift of [binary_round_aux] on an exact mantissa. *)
Lemma shr_fexp_exact m e :
  0 <= m ->
  let n := fexp prec emax (Zdigits2 m + e) - e in
  let (mrs, e') := shr_fexp prec emax m e loc_Exact in
  round_nearest_even (shr_m mrs) (loc_of_shr_record mrs) = rnd_shift m n
  /\ shr_m mrs = m / 2 ^ Z.max n 0
  /\ e' = e + Z.max n 0.
Proof.
  intros Hm n; unfold shr_fexp; fold n.
  change (shr_record_of_loc m loc_Exact) with (Build_shr_record m false false).
  unfold rnd_shift.
  destruct (Z.leb_spec n 0) as [Hn|Hn].
  - replace (Z.max n 0) with 0 by lia.
    assert (E : shr (Build_shr_record m false false) e n
                = (Build_shr_record m false false, e))
      by (destruct n; try lia; reflexivity).
    rewrite E; simpl; rewrite Z.div_1_r; repeat split; lia.
  - rewrite shr_exact by lia.
    rewrite round_of_record; simpl.
    replace (Z.max n 0) with n by lia; auto.
Qed.

Lemma binary_round_aux_finish m e l :
  binary_round_aux prec emax false m e l
  = let '(mrs, e1) := shr_fexp prec emax m e l in
    finish (round_nearest_even (shr_m mrs) (loc_of_shr_record mrs)) e1.
Proof. reflexivity. Qed.

Lemma log2_range q a : 0 < q -> 2 ^ a <= q < 2 ^ (a + 1) -> 0 <= a -> Z.log2 q = a.
Proof. intros Hq H Ha; apply Z.log2_unique; [lia|]. now rewrite <- Z.add_1_r. Qed.

Lemma finish_norm q e1 :
  0 < q <= 2 ^ 53 -> -1074 <= e1 -> (q < 2 ^ 52 -> e1 = -1074) ->
  finish q e1 = norm q (e1 + 1074).
Proof.
  intros Hq He Hsub; unfold finish.
  pose proof (shr_fexp_exact q e1 ltac:(lia)) as H; cbv zeta in H.
  destruct (shr_fexp prec emax q e1 loc_Exact) as [mrs e2].
  destruct H as (_ & Hm & ->); rewrite Hm; clear Hm.
  rewrite fexp_eq, Zdigits2_log2 by lia.
  unfold norm, out.
  change (emax - prec) with 971.
  destruct (Z.eqb_spec q (2 ^ 53)) as [->|Hne].
  - rewrite Z.log2_pow2 by lia.
    replace (Z.max (Z.max (53 + 1 + e1 - 53) (-1074) - e1) 0) with 1 by lia.
    change (2 ^ 53 / 2 ^ 1) with (2 ^ 52).
    replace (e1 + 1074 + 1 - 1074) with (e1 + 1) by lia.
    reflexivity.
  - assert (Hl : Z.log2 q <= 52).
    { apply Z.lt_succ_r, Z.log2_lt_pow2; lia. }
    assert (Hl0 : 0 <= Z.log2 q) by apply Z.log2_nonneg.
    assert (Hl' : Z.log2 q < 52 -> e1 = -1074).
    { intros H; apply Hsub.
      apply Z.log2_lt_pow2; lia. }
    replace (Z.max (Z.max (Z.log2 q + 1 + e1 - 53) (-1074) - e1) 0) with 0
      by lia.
    rewrite Z.add_0_r, Z.div_1_r.
    replace (e1 + 1074 - 1074) with e1 by lia.
    destruct q; try lia; reflexivity.
Qed.

Lemma rne_bounds q rb st : q <= rne q rb st <= q + 1.
Proof. unfold rne; destruct rb, st, (Z.even q); lia. Qed.

Lemma rnd_shift_bounds m n :
  0 <= n -> m / 2 ^ n <= rnd_shift m n <= m / 2 ^ n + 1.
Proof.
  intros Hn; unfold rnd_shift.
  destruct (Z.leb_spec n 0).
  - replace n with 0 by lia; rewrite Z.div_1_r; lia.
  - apply rne_bounds.
Qed.

Lemma pow2_pos a : 0 <= a -> 0 < 2 ^ a.
Proof. intros; apply Z.pow_pos_nonneg; lia. Qed.

(** The digits that stay after a shift. *)
Lemma div_pow2_range m n :
  0 < m -> 0 <= n <= Z.log2 m ->
  2 ^ (Z.log2 m - n) <= m / 2 ^ n < 2 ^ (Z.log2 m + 1 - n).
Proof.
  intros Hm Hn.
  destruct (Z.log2_spec m Hm) as [Hlo Hhi]; rewrite <- Z.add_1_r in Hhi.
  pose proof (pow2_pos n ltac:(lia)) as Hp.
  split.
  - apply Z.div_le_lower_bound; [lia|].
    rewrite <- Z.pow_add_r by lia.
    now replace (n + (Z.log2 m - n)) with (Z.log2 m) by lia.
  - apply Z.div_lt_upper_bound; [lia|].
    rewrite <- Z.pow_add_r by lia.
    now replace (n + (Z.log2 m + 1 - n)) with (Z.log2 m + 1) by lia.
Qed.

Lemma rnd_shift_scale m n j :
  0 <= m -> 0 <= n -> 0 <= j ->
  rnd_shift (m * 2 ^ j) (n + j) = rnd_shift m n.
Proof.
  intros Hm Hn Hj; unfold rnd_shift.
  pose proof (pow2_pos j Hj) as Hpj.
  destruct (Z.leb_spec n 0) as [Hn0|Hn0].
  - assert (n = 0) by lia; subst n; simpl (0 + j).
    destruct (Z.leb_spec j 0) as [Hj0|Hj0].
    + replace j with 0 by lia; lia.
    + rewrite Z.div_mul by lia.
      assert (E : m * 2 ^ j = (m * 2) * 2 ^ (j - 1)).
      { replace j with (Z.succ (j - 1)) at 1 by lia.
        rewrite Z.pow_succ_r by lia; ring. }
      rewrite E, Z.div_mul by (apply Z.pow_nonzero; lia).
      rewrite Z.odd_mul, andb_false_r; reflexivity.
  - destruct (Z.leb_spec (n + j) 0); [lia|].
    rewrite Z.pow_add_r by lia.
    rewrite Z.div_mul_cancel_r by (try apply Z.pow_nonzero; lia).
    replace (n + j - 1) with ((n - 1) + j) by lia.
    rewrite Z.pow_add_r by lia.
    rewrite Z.div_mul_cancel_r by (try apply Z.pow_nonzero; lia).
    rewrite Z.mul_mod_distr_r by (try apply Z.pow_nonzero; lia).
    f_equal. f_equal.
    destruct (Z.eqb_spec (m mod 2 ^ (n - 1)) 0) as [->|Hne].
    + reflexivity.
    + apply Z.eqb_neq; nia.
Qed.

Lemma binary_round_aux_round64 m e :
  0 < m -> -1074 <= e -> e <= fexp prec emax (Zdigits2 m + e) ->
  binary_round_aux prec emax false m e loc_Exact
  = round64 (m * 2 ^ (e + 1074)).
Proof.
  intros Hm He Hn.
  rewrite binary_round_aux_finish.
  pose proof (shr_fexp_exact m e ltac:(lia)) as H; cbv zeta in H.
  destruct (shr_fexp prec emax m e loc_Exact) as [mrs e1].
  destruct H as (-> & _ & ->).
  rewrite fexp_eq, Zdigits2_log2 in * by lia.
  set (D := Z.log2 m + 1) in *.
  set (n := Z.max (D + e - 53) (-1074) - e) in *.
  assert (HD : 1 <= D) by (pose proof (Z.log2_nonneg m); lia).
  assert (Hn0 : 0 <= n) by lia.
  assert (HnD : n <= Z.log2 m) by lia.
  pose proof (div_pow2_range m n Hm ltac:(lia)) as [Hlo Hhi].
  pose proof (rnd_shift_bounds m n Hn0) as Hq.
  pose proof (pow2_pos (Z.log2 m - n) ltac:(lia)) as Hp1.
  assert (Hup : 2 ^ (Z.log2 m + 1 - n) <= 2 ^ 53)
    by (apply Z.pow_le_mono_r; lia).
  replace (Z.max n 0) with n by lia.
  rewrite finish_norm.
  - unfold round64.
    rewrite Z.log2_mul_pow2 by lia.
    replace (Z.max (e + 1074 + Z.log2 m + 1 - 53) 0) with (n + (e + 1074))
      by lia.
    rewrite rnd_shift_scale by lia.
    f_equal; lia.
  - lia.
  - lia.
  - intros Hlt.
    destruct (Z.eq_dec (e + n) (-1074)) as [|Hne]; [assumption|exfalso].
    assert (En : Z.log2 m - n = 52) by lia.
    rewrite En in Hlo; lia.
Qed.

Lemma iter_xO m d : Zpos (Pos.iter xO m d) = Zpos m * 2 ^ Zpos d.
Proof.
  induction d as [|d IH] using Pos.peano_ind.
  - simpl Pos.iter; rewrite Pos2Z.inj_xO; change (2 ^ 1) with 2; lia.
  - rewrite Pos.iter_succ, Pos2Z.inj_xO, IH, Pos2Z.inj_succ.
    rewrite Z.pow_succ_r by lia; ring.
Qed.

(** Rounding a positive dyadic number [m * 2^e]: the result is set by the
    number counted in units of [2^-1074]. *)
Theorem binary_round_round64 m e :
  -1074 <= e ->
  binary_round prec emax false m e = round64 (Zpos m * 2 ^ (e + 1074)).
Proof.
  intros He; unfold binary_round, shl_align.
  rewrite fexp_eq, digits2_log2.
  destruct (Z.max (Z.log2 (Z.pos m) + 1 + e - 53) (-1074) - e) as [|d|d] eqn:Ed.
  - apply binary_round_aux_round64; try lia.
    rewrite fexp_eq, Zdigits2_log2; lia.
  - apply binary_round_aux_round64; try lia.
    rewrite fexp_eq, Zdigits2_log2; lia.
  - rewrite binary_round_aux_round64.
    + rewrite iter_xO, <- Z.mul_assoc, <- Z.pow_add_r by lia.
      f_equal; f_equal; f_equal; lia.
    + lia.
    + lia.
    + rewrite fexp_eq, Zdigits2_log2, iter_xO by lia.
      rewrite Z.log2_mul_pow2 by lia. lia.
Qed.

(** The round bit and the sticky bit, read off the remainder. *)
Lemma round_bits n k :
  0 <= n -> 0 < k ->
  let h := 2 ^ (k - 1) in
  let r := n mod 2 ^ k in
  Z.odd (n / h) = (h <=? r) /\ (n mod h =? 0) = ((r =? 0) || (r =? h)).
Proof.
  intros Hn Hk h r.
  pose proof (pow2_pos (k - 1) ltac:(lia)) as Hh; fold h in Hh.
  assert (Er : r = n mod h + h * ((n / h) mod 2)).
  { unfold r, h. replace k with (k - 1 + 1) at 1 by lia.
    apply mod_pow2_succ; lia. }
  pose proof (Z.mod_pos_bound n h Hh) as Hb.
  rewrite Zmod_odd in Er.
  destruct (Z.odd (n / h)).
  - split; [symmetry; apply Z.leb_le; lia|].
    destruct (Z.eqb_spec (n mod h) 0), (Z.eqb_spec r 0), (Z.eqb_spec r h);
      simpl; try reflexivity; lia.
  - split; [symmetry; apply Z.leb_gt; lia|].
    destruct (Z.eqb_spec (n mod h) 0), (Z.eqb_spec r 0), (Z.eqb_spec r h);
      simpl; try reflexivity; lia.
Qed.

(** Rounding to nearest, from the quotient and the remainder. *)
Lemma rnd_shift_remainder n k :
  0 <= n -> 0 < k ->
  let q := n / 2 ^ k in
  let r := n mod 2 ^ k in
  let h := 2 ^ (k - 1) in
  rnd_shift n k
  = if r <? h then q
    else if h <? r then q + 1
    else if Z.even q then q else q + 1.
Proof.
  intros Hn Hk q r h; unfold rnd_shift, rne.
  destruct (round_bits n k Hn Hk) as [Hrb Hst]; fold h r in Hrb, Hst.
  pose proof (pow2_pos (k - 1) ltac:(lia)) as Hh; fold h in Hh.
  destruct (Z.leb_spec k 0); [lia|].
  fold h q; rewrite Hrb, Hst.
  destruct (Z.leb_spec h r), (Z.ltb_spec r h), (Z.ltb_spec h r),
    (Z.eqb_spec r 0), (Z.eqb_spec r h); simpl; try reflexivity; lia.
Qed.

Lemma rnd_shift_mono n1 n2 k :
  0 <= n1 <= n2 -> rnd_shift n1 k <= rnd_shift n2 k.
Proof.
  intros Hn.
  destruct (Z.leb_spec k 0) as [Hk|Hk].
  - unfold rnd_shift; destruct (Z.leb_spec k 0); lia.
  - rewrite !rnd_shift_remainder by lia.
    pose proof (pow2_pos k ltac:(lia)) as Hp.
    assert (E : 2 ^ k = 2 * 2 ^ (k - 1)).
    { rewrite <- Z.pow_succ_r by lia; f_equal; lia. }
    pose proof (Z.div_mod n1 (2 ^ k) ltac:(lia)) as E1.
    pose proof (Z.div_mod n2 (2 ^ k) ltac:(lia)) as E2.
    pose proof (Z.mod_pos_bound n1 (2 ^ k) Hp) as B1.
    pose proof (Z.mod_pos_bound n2 (2 ^ k) Hp) as B2.
    assert (Hq : n1 / 2 ^ k <= n2 / 2 ^ k) by (apply Z.div_le_mono; lia).
    set (q1 := n1 / 2 ^ k) in *; set (q2 := n2 / 2 ^ k) in *.
    set (r1 := n1 mod 2 ^ k) in *; set (r2 := n2 mod 2 ^ k) in *.
    set (h := 2 ^ (k - 1)) in *.
    destruct (Z.eq_dec q1 q2) as [Eq|Nq].
    + rewrite <- Eq in *.
      assert (r1 <= r2) by nia.
      destruct (Z.ltb_spec r1 h), (Z.ltb_spec h r1), (Z.ltb_spec r2 h),
        (Z.ltb_spec h r2), (Z.even q1); lia.
    + destruct (Z.ltb_spec r1 h), (Z.ltb_spec h r1), (Z.ltb_spec r2 h),
        (Z.ltb_spec h r2), (Z.even q1), (Z.even q2); lia.
Qed.

Lemma out_le m1 k1 m2 k2 :
  0 < m1 -> 0 < m2 ->
  k1 < k2 \/ (k1 = k2 /\ m1 <= m2) ->
  SFleb (out m1 k1) (out m2 k2) = true.
Proof.
  intros H1 H2 H; unfold out.
  destruct (Z.leb_spec (k1 - 1074) 971), (Z.leb_spec (k2 - 1074) 971);
    try reflexivity; try lia.
  unfold SFleb, SFcompare.
  destruct (Z.compare_spec (k1 - 1074) (k2 - 1074)); try reflexivity;
    try lia.
  change (Pos.compare_cont Eq ?a ?b) with (Pos.compare a b).
  rewrite <- Z2Pos.inj_compare by lia.
  destruct (Z.compare_spec m1 m2); try reflexivity; lia.
Qed.

Lemma norm_le q1 k1 q2 k2 :
  0 < q1 <= 2 ^ 53 -> 0 < q2 <= 2 ^ 53 ->
  (k1 < k2 /\ 2 ^ 52 <= q2) \/ (k1 = k2 /\ q1 <= q2) ->
  SFleb (norm q1 k1) (norm q2 k2) = true.
Proof.
  intros H1 H2 H; unfold norm.
  destruct (Z.eqb_spec q1 (2 ^ 53)), (Z.eqb_spec q2 (2 ^ 53));
    apply out_le; lia.
Qed.

Lemma round64_mantissa n :
  0 < n ->
  let k := Z.max (Z.log2 n + 1 - 53) 0 in
  let q := rnd_shift n k in
  0 < q <= 2 ^ 53 /\ (0 < k -> 2 ^ 52 <= q).
Proof.
  intros Hn k q.
  pose proof (Z.log2_nonneg n) as Hl.
  pose proof (rnd_shift_bounds n k ltac:(lia)) as Hq; fold q in Hq.
  pose proof (div_pow2_range n k Hn ltac:(lia)) as [Hlo Hhi].
  pose proof (pow2_pos (Z.log2 n - k) ltac:(lia)) as Hp.
  assert (Hup : 2 ^ (Z.log2 n + 1 - k) <= 2 ^ 53)
    by (apply Z.pow_le_mono_r; lia).
  split; [lia|].
  intros Hk; replace (Z.log2 n - k) with 52 in Hlo by lia; lia.
Qed.

(** Rounding is monotone. *)
Theorem round64_mono n1 n2 :
  0 < n1 <= n2 -> SFleb (round64 n1) (round64 n2) = true.
Proof.
  intros Hn; unfold round64.
  pose proof (round64_mantissa n1 ltac:(lia)) as [Hq1 _].
  pose proof (round64_mantissa n2 ltac:(lia)) as [Hq2 Hk2].
  cbv zeta in *.
  pose proof (Z.log2_le_mono n1 n2 ltac:(lia)) as Hl.
  apply norm_le; try assumption.
  destruct (Z.eq_dec (Z.max (Z.log2 n1 + 1 - 53) 0)
              (Z.max (Z.log2 n2 + 1 - 53) 0)) as [E|N].
  - right; split; [assumption|].
    rewrite E; apply rnd_shift_mono; lia.
  - left; split; [lia|apply Hk2; lia].
Qed.

Lemma valid_finite s m e :
  valid_binary (S754_finite s m e) = true ->
  -1074 <= e <= 971 /\ Zpos m < 2 ^ 53 /\ (-1074 < e -> 2 ^ 52 <= Zpos m).
Proof.
  unfold SpecFloat.valid_binary, bounded, canonical_mantissa.
  rewrite fexp_eq, digits2_log2; change (emax - prec) with 971.
  intros H; apply andb_true_iff in H as [H1 H2].
  apply Z.eqb_eq in H1; apply Z.leb_le in H2.
  destruct (Z.log2_spec (Zpos m) ltac:(lia)) as [Hlo Hhi].
  rewrite <- Z.add_1_r in Hhi.
  split; [lia|]; split.
  - eapply Z.lt_le_trans; [exact Hhi|apply Z.pow_le_mono_r; lia].
  - intros He; replace 52 with (Z.log2 (Z.pos m)) by lia; exact Hlo.
Qed.

Lemma shl_align_value m e ez :
  ez <= e -> Zpos (fst (shl_align m e ez)) = Zpos m * 2 ^ (e - ez).
Proof.
  intros H; unfold shl_align.
  destruct (ez - e) as [|d|d] eqn:E; try lia; simpl fst.
  - replace (e - ez) with 0 by lia; lia.
  - rewrite iter_xO; f_equal; f_equal; lia.
Qed.

(** The sum of two positive finite numbers is their exact sum, rounded. *)
Lemma SFadd_round64 m1 e1 m2 e2 :
  -1074 <= e1 -> -1074 <= e2 ->
  SFadd prec emax (S754_finite false m1 e1) (S754_finite false m2 e2)
  = round64 (ival (S754_finite false m1 e1) + ival (S754_finite false m2 e2)).
Proof.
  intros H1 H2; unfold SFadd, cond_Zopp, ival.
  rewrite !shl_align_value by lia.
  set (ez := Z.min e1 e2).
  pose proof (pow2_pos (e1 - ez) ltac:(lia)).
  pose proof (pow2_pos (e2 - ez) ltac:(lia)).
  destruct (Z.pos m1 * 2 ^ (e1 - ez) + Z.pos m2 * 2 ^ (e2 - ez))
    as [|p|p] eqn:E; try lia.
  unfold binary_normalize; rewrite binary_round_round64 by lia.
  f_equal; rewrite <- E, Z.mul_add_distr_r, <- !Z.mul_assoc.
  rewrite <- !Z.pow_add_r by lia.
  f_equal; f_equal; f_equal; lia.
Qed.

Lemma SFleb_ival m1 e1 m2 e2 :
  valid_binary (S754_finite false m1 e1) = true ->
  valid_binary (S754_finite false m2 e2) = true ->
  SFleb (S754_finite false m1 e1) (S754_finite false m2 e2) = true ->
  ival (S754_finite false m1 e1) <= ival (S754_finite false m2 e2).
Proof.
  intros V1 V2; apply valid_finite in V1 as (He1 & Hm1 & _).
  apply valid_finite in V2 as (He2 & _ & Hm2).
  unfold SFleb, SFcompare, ival.
  destruct (Z.compare_spec e1 e2) as [->|Hlt|Hgt]; try discriminate.
  - change (Pos.compare_cont Eq ?a ?b) with (Pos.compare a b).
    destruct (Pos.compare_spec m1 m2); try discriminate; intros _.
    + subst; lia.
    + apply Z.mul_le_mono_nonneg_r; [apply Z.lt_le_incl, pow2_pos|]; lia.
  - intros _.
    pose proof (pow2_pos (e1 + 1074) ltac:(lia)) as Hp.
    apply Z.le_trans with (2 ^ 53 * 2 ^ (e1 + 1074)); [nia|].
    apply Z.le_trans with (2 ^ 52 * 2 ^ (e2 + 1074)).
    + rewrite <- !Z.pow_add_r by lia; apply Z.pow_le_mono_r; lia.
    + apply Z.mul_le_mono_nonneg_r; [apply Z.lt_le_incl, pow2_pos|]; lia.
Qed.

Lemma round64_from_one n : 2 ^ 1074 <= n -> from_one (round64 n).
Proof.
  intros Hn.
  assert (H0 : 0 < n) by (pose proof (pow2_pos 1074); lia).
  assert (Hl : 1074 <= Z.log2 n) by (apply Z.log2_le_pow2; lia).
  pose proof (round64_mantissa n H0) as [Hq Hk]; cbv zeta in *.
  unfold round64, norm, out, from_one.
  set (k := Z.max (Z.log2 n + 1 - 53) 0) in *.
  set (q := rnd_shift n k) in *.
  specialize (Hk ltac:(lia)).
  destruct (Z.eqb_spec q (2 ^ 53)).
  - destruct (Z.leb_spec (k + 1 - 1074) 971); [right|now left].
    exists (Z.to_pos (2 ^ 52)), (k + 1 - 1074); repeat split; try lia;
      now vm_compute.
  - destruct (Z.leb_spec (k - 1074) 971); [right|now left].
    exists (Z.to_pos q), (k - 1074); rewrite Z2Pos.id by lia.
    repeat split; lia.
Qed.

Lemma round_new_location q b r :
  0 < b -> 0 <= r < b ->
  round_nearest_even q (new_location b r)
  = if 2 * r <? b then q
    else if b <? 2 * r then q + 1
    else if Z.even q then q else q + 1.
Proof.
  intros Hb Hr.
  unfold new_location, new_location_even, new_location_odd,
    round_nearest_even.
  destruct (Z.even b) eqn:Eb.
  - destruct (Z.eqb_spec r 0) as [->|Hr0].
    + destruct (Z.ltb_spec (2 * 0) b); [reflexivity|lia].
    + destruct (Z.compare_spec (2 * r) b), (Z.ltb_spec (2 * r) b),
        (Z.ltb_spec b (2 * r)); try lia; reflexivity.
  - assert (Ho : Z.odd b = true) by (rewrite <- Z.negb_even, Eb; reflexivity).
    apply Z.odd_spec in Ho as [c Hc].
    destruct (Z.eqb_spec r 0) as [->|Hr0].
    + destruct (Z.ltb_spec (2 * 0) b); [reflexivity|lia].
    + destruct (Z.compare_spec (2 * r + 1) b), (Z.ltb_spec (2 * r) b),
        (Z.ltb_spec b (2 * r)); try lia; reflexivity.
Qed.

Lemma rdiv_bounds a b : 0 < b -> a / b <= rdiv a b <= a / b + 1.
Proof.
  intros; unfold rdiv.
  destruct (2 * (a mod b) <? b), (b <? 2 * (a mod b)), (Z.even (a / b)); lia.
Qed.

Lemma rdiv_exact a b : 0 < b -> a mod b = 0 -> rdiv a b = a / b.
Proof.
  intros Hb Hr; unfold rdiv; rewrite Hr.
  destruct (Z.ltb_spec (2 * 0) b); [reflexivity|lia].
Qed.

(** The rounded quotient decreases when the divisor grows. *)
Lemma rdiv_antitone a b1 b2 :
  0 <= a -> 0 < b1 <= b2 -> rdiv a b2 <= rdiv a b1.
Proof.
  intros Ha Hb.
  pose proof (Z.div_mod a b1 ltac:(lia)) as E1.
  pose proof (Z.div_mod a b2 ltac:(lia)) as E2.
  pose proof (Z.mod_pos_bound a b1 ltac:(lia)) as B1.
  pose proof (Z.mod_pos_bound a b2 ltac:(lia)) as B2.
  assert (Hq : a / b2 <= a / b1)
    by (apply Z.div_le_compat_l; lia).
  assert (Hq0 : 0 <= a / b2) by (apply Z.div_pos; lia).
  unfold rdiv.
  set (q1 := a / b1) in *; set (q2 := a / b2) in *.
  set (r1 := a mod b1) in *; set (r2 := a mod b2) in *.
  destruct (Z.eq_dec q1 q2) as [Eq|Nq].
  - rewrite Eq in *.
    assert (Hr : r1 = r2 + q2 * (b2 - b1)) by nia.
    destruct (Z.eq_dec b1 b2) as [Eb|Nb].
    + subst b2; replace r1 with r2 by lia; lia.
    + assert (Hd : 1 <= b2 - b1) by lia.
      destruct (Z.ltb_spec (2 * r2) b2), (Z.ltb_spec b2 (2 * r2)),
        (Z.ltb_spec (2 * r1) b1), (Z.ltb_spec b1 (2 * r1)),
        (Z.even q2); try lia; nia.
  - destruct (Z.ltb_spec (2 * r2) b2), (Z.ltb_spec b2 (2 * r2)),
      (Z.ltb_spec (2 * r1) b1), (Z.ltb_spec b1 (2 * r1)),
      (Z.even q2), (Z.even q1); lia.
Qed.

Lemma SFdiv_core_one m e :
  2 ^ 52 <= Zpos m < 2 ^ 53 -> -52 <= e <= 971 ->
  SFdiv_core_binary prec emax 4503599627370496 (-52) (Zpos m) e
  = (2 ^ (52 + div_shift e) / Zpos m, div_exp e,
     new_location (Zpos m) (2 ^ (52 + div_shift e) mod Zpos m)).
Proof.
  intros Hm He; unfold SFdiv_core_binary.
  rewrite fexp_eq.
  assert (Hl : Z.log2 (Zpos m) = 52) by (apply log2_range; lia).
  rewrite (Zdigits2_log2 (Zpos m)), Hl by lia.
  change (Zdigits2 4503599627370496) with 53.
  replace (Z.min (Z.max (53 + -52 - (52 + 1 + e) - 53) (-1074)) (-52 - e))
    with (div_exp e) by (unfold div_exp; lia).
  replace (-52 - e - div_exp e) with (div_shift e)
    by (unfold div_exp, div_shift; lia).
  assert (Hs : 0 < div_shift e) by (unfold div_shift; lia).
  destruct (div_shift e) as [|s|s] eqn:Es; try lia.
  rewrite Z.shiftl_mul_pow2 by lia.
  change 4503599627370496 with (2 ^ 52); rewrite <- Z.pow_add_r by lia.
  unfold Z.div, Z.modulo.
  now destruct (Z.div_eucl (2 ^ (52 + Z.pos s)) (Z.pos m)).
Qed.

Lemma loc_record_roundtrip q l :
  let mrs := shr_record_of_loc q l in
  round_nearest_even (shr_m mrs) (loc_of_shr_record mrs)
  = round_nearest_even q l.
Proof. destruct l as [|[]]; reflexivity. Qed.

(** Rounding a quotient that already has the right number of digits. *)
Lemma binary_round_aux_quotient q e l :
  0 < q <= 2 ^ 53 -> -1074 <= e -> (q < 2 ^ 52 -> e = -1074) ->
  (q = 2 ^ 53 -> l = loc_Exact) ->
  binary_round_aux prec emax false q e l
  = norm (round_nearest_even q l) (e + 1074).
Proof.
  intros Hq He Hsub Hex.
  destruct (Z.eq_dec q (2 ^ 53)) as [->|Hne].
  - rewrite (Hex eq_refl), binary_round_aux_finish.
    pose proof (shr_fexp_exact (2 ^ 53) e ltac:(lia)) as H; cbv zeta in H.
    destruct (shr_fexp prec emax (2 ^ 53) e loc_Exact) as [mrs e1].
    destruct H as (-> & _ & ->).
    rewrite fexp_eq.
    change (Zdigits2 (2 ^ 53)) with 54.
    replace (Z.max (54 + e - 53) (-1074) - e) with 1 by lia.
    change (rnd_shift (2 ^ 53) 1) with (2 ^ 52).
    rewrite finish_norm by lia.
    change (Z.max 1 0) with 1.
    change (round_nearest_even (2 ^ 53) loc_Exact) with (2 ^ 53).
    unfold norm.
    change (2 ^ 52 =? 2 ^ 53) with false.
    change (2 ^ 53 =? 2 ^ 53) with true.
    cbv iota; f_equal; lia.
  - rewrite binary_round_aux_finish.
    unfold shr_fexp; rewrite fexp_eq, Zdigits2_log2 by lia.
    assert (Hl : Z.log2 q <= 52).
    { apply Z.lt_succ_r, Z.log2_lt_pow2; lia. }
    pose proof (Z.log2_nonneg q) as Hl0.
    assert (Hl' : Z.log2 q < 52 -> e = -1074).
    { intros H; apply Hsub, Z.log2_lt_pow2; lia. }
    assert (E : shr (shr_record_of_loc q l) e
                  (Z.max (Z.log2 q + 1 + e - 53) (-1074) - e)
                = (shr_record_of_loc q l, e)).
    { destruct (Z.max (Z.log2 q + 1 + e - 53) (-1074) - e) eqn:En;
        try lia; reflexivity. }
    rewrite E, loc_record_roundtrip.
    assert (Hr : q <= round_nearest_even q l <= q + 1).
    { destruct l as [|[]]; simpl; try lia; destruct (Z.even q); lia. }
    apply finish_norm; lia.
Qed.

Lemma quotient_bounds m s :
  2 ^ 52 <= m < 2 ^ 53 -> 0 < s ->
  2 ^ (s - 1) <= 2 ^ (52 + s) / m <= 2 ^ s
  /\ (2 ^ (52 + s) / m = 2 ^ s -> 2 ^ (52 + s) mod m = 0).
Proof.
  intros Hm Hs.
  pose proof (pow2_pos (s - 1) ltac:(lia)) as Hp.
  assert (E1 : 2 ^ (52 + s) = 2 ^ 53 * 2 ^ (s - 1)).
  { rewrite <- Z.pow_add_r by lia; f_equal; lia. }
  assert (E2 : 2 ^ s = 2 * 2 ^ (s - 1)).
  { rewrite <- Z.pow_succ_r by lia; f_equal; lia. }
  assert (E3 : 2 ^ (52 + s) = 2 ^ 52 * 2 ^ s).
  { rewrite <- Z.pow_add_r by lia; reflexivity. }
  pose proof (Z.div_mod (2 ^ (52 + s)) m ltac:(lia)) as E.
  pose proof (Z.mod_pos_bound (2 ^ (52 + s)) m ltac:(lia)) as B.
  repeat split.
  - apply Z.div_le_lower_bound; [lia|]. rewrite E1; nia.
  - apply Z.div_le_upper_bound; [lia|]. rewrite E3; nia.
  - intros Eq; rewrite Eq in E; nia.
Qed.

Lemma div_shift_range e : -52 <= e <= 971 -> 51 <= div_shift e <= 53.
Proof. unfold div_shift; lia. Qed.

Lemma rdiv_one_bounds m e :
  2 ^ 52 <= m < 2 ^ 53 -> -52 <= e <= 971 ->
  2 ^ (div_shift e - 1) <= rdiv (2 ^ (52 + div_shift e)) m
  <= 2 ^ div_shift e.
Proof.
  intros Hm He.
  pose proof (div_shift_range e He) as Hs.
  destruct (quotient_bounds m (div_shift e) Hm ltac:(lia)) as [Hq Hex].
  pose proof (rdiv_bounds (2 ^ (52 + div_shift e)) m ltac:(lia)) as Hr.
  split; [lia|].
  destruct (Z.eq_dec (2 ^ (52 + div_shift e) / m) (2 ^ div_shift e))
    as [Eq|Nq].
  - rewrite rdiv_exact by (try apply Hex; lia); lia.
  - lia.
Qed.

(** One divided by a normal number not below one. *)
Lemma SFdiv_one m e :
  2 ^ 52 <= Zpos m < 2 ^ 53 -> -52 <= e <= 971 ->
  SFdiv prec emax sf_one (S754_finite false m e)
  = norm (rdiv (2 ^ (52 + div_shift e)) (Zpos m)) (div_exp e + 1074).
Proof.
  intros Hm He; unfold SFdiv, sf_one.
  rewrite SFdiv_core_one by assumption.
  pose proof (div_shift_range e He) as Hs.
  destruct (quotient_bounds (Zpos m) (div_shift e) Hm ltac:(lia))
    as [Hq Hex].
  pose proof (pow2_pos (div_shift e - 1) ltac:(lia)) as Hp.
  assert (Hup : 2 ^ div_shift e <= 2 ^ 53) by (apply Z.pow_le_mono_r; lia).
  simpl xorb.
  rewrite binary_round_aux_quotient.
  - rewrite round_new_location
      by (try apply Z.mod_pos_bound; lia).
    reflexivity.
  - lia.
  - unfold div_exp; lia.
  - intros Hlt.
    destruct (Z.eq_dec (div_exp e) (-1074)) as [|Hne]; [assumption|exfalso].
    assert (Es : div_shift e = 53) by (unfold div_exp, div_shift in *; lia).
    rewrite Es in *; change (53 - 1) with 52 in Hq; lia.
  - intros Eq.
    assert (Es : div_shift e = 53).
    { destruct (Z.eq_dec (div_shift e) 53) as [|Hne]; [assumption|exfalso].
      assert (2 ^ div_shift e <= 2 ^ 52) by (apply Z.pow_le_mono_r; lia).
      lia. }
    rewrite Es in *; rewrite (Hex Eq).
    unfold new_location, new_location_even, new_location_odd.
    now destruct (Z.even (Z.pos m)).
Qed.

Lemma norm_one : norm (2 ^ 52) 1022 = sf_one.
Proof. reflexivity. Qed.

Lemma norm_pos q k :
  0 < q <= 2 ^ 53 -> k <= 1021 + 1023 ->
  SFltb (S754_zero false) (norm q k) = true.
Proof.
  intros Hq Hk; unfold norm, out.
  destruct (Z.eqb_spec q (2 ^ 53)).
  - destruct (Z.leb_spec (k + 1 - 1074) 971); [reflexivity|lia].
  - destruct (Z.leb_spec (k - 1074) 971); [reflexivity|lia].
Qed.

(** One divided by a number not below one lies in (0, 1]. *)
Lemma SFdiv_one_range m e :
  2 ^ 52 <= Zpos m < 2 ^ 53 -> -52 <= e <= 971 ->
  let s := SFdiv prec emax sf_one (S754_finite false m e) in
  SFltb (S754_zero false) s = true /\ SFleb s sf_one = true.
Proof.
  intros Hm He; cbv zeta; rewrite SFdiv_one by assumption.
  pose proof (div_shift_range e He) as Hs.
  pose proof (rdiv_one_bounds (Zpos m) e Hm He) as Hr.
  pose proof (pow2_pos (div_shift e - 1) ltac:(lia)) as Hp.
  assert (Hup : 2 ^ div_shift e <= 2 ^ 53) by (apply Z.pow_le_mono_r; lia).
  split.
  - apply norm_pos; [lia|unfold div_exp; lia].
  - rewrite <- norm_one; apply norm_le; try lia.
    left; unfold div_exp; lia.
Qed.

(** The quotient decreases when the divisor grows. *)
Lemma SFdiv_one_antitone m1 e1 m2 e2 :
  2 ^ 52 <= Zpos m1 < 2 ^ 53 -> -52 <= e1 <= 971 ->
  2 ^ 52 <= Zpos m2 < 2 ^ 53 -> -52 <= e2 <= 971 ->
  SFleb (S754_finite false m1 e1) (S754_finite false m2 e2) = true ->
  SFleb (SFdiv prec emax sf_one (S754_finite false m2 e2))
        (SFdiv prec emax sf_one (S754_finite false m1 e1)) = true.
Proof.
  intros Hm1 He1 Hm2 He2 Hle; rewrite !SFdiv_one by assumption.
  pose proof (div_shift_range e1 He1) as Hs1.
  pose proof (div_shift_range e2 He2) as Hs2.
  pose proof (rdiv_one_bounds (Zpos m1) e1 Hm1 He1) as Hr1.
  pose proof (rdiv_one_bounds (Zpos m2) e2 Hm2 He2) as Hr2.
  pose proof (pow2_pos (div_shift e1 - 1) ltac:(lia)) as Hp1.
  pose proof (pow2_pos (div_shift e2 - 1) ltac:(lia)) as Hp2.
  assert (Hup1 : 2 ^ div_shift e1 <= 2 ^ 53)
    by (apply Z.pow_le_mono_r; lia).
  assert (Hup2 : 2 ^ div_shift e2 <= 2 ^ 53)
    by (apply Z.pow_le_mono_r; lia).
  apply norm_le; try lia.
  revert Hle; unfold SFleb, SFcompare.
  destruct (Z.compare_spec e1 e2) as [->|Hlt|Hgt]; try discriminate.
  - change (Pos.compare_cont Eq ?a ?b) with (Pos.compare a b).
    destruct (Pos.compare_spec m1 m2); try discriminate; intros _;
      right; (split; [reflexivity|]); apply rdiv_antitone; try lia;
      apply Z.lt_le_incl, pow2_pos; lia.
  - intros _.
    destruct (Z_lt_le_dec e1 969) as [Hlo|Hhi].
    + left; split; [unfold div_exp; lia|].
      assert (Es : div_shift e1 = 53) by (unfold div_shift; lia).
      rewrite Es in *; change (53 - 1) with 52 in Hr1; lia.
    + right; split; [unfold div_exp; lia|].
      assert (2 ^ div_shift e2 <= 2 ^ (div_shift e1 - 1))
        by (apply Z.pow_le_mono_r; unfold div_shift; lia).
      lia.
Qed.

Lemma nonneg_cases x :
  SFleb (S754_zero false) x = true ->
  (exists s, x = S754_zero s) \/ x = S754_infinity false
  \/ exists m e, x = S754_finite false m e.
Proof.
  destruct x as [s|[]| |[] m e]; try discriminate; eauto.
Qed.

Lemma ival_one : ival sf_one = 2 ^ 1074.
Proof. reflexivity. Qed.

Lemma round64_one : round64 (2 ^ 1074) = sf_one.
Proof. vm_compute; reflexivity. Qed.

Lemma ival_pos m e : -1074 <= e -> 0 < ival (S754_finite false m e).
Proof. intros; unfold ival; pose proof (pow2_pos (e + 1074)); nia. Qed.

Lemma add_one_finite m e :
  valid_binary (S754_finite false m e) = true ->
  sf_add_one (S754_finite false m e)
  = round64 (2 ^ 1074 + ival (S754_finite false m e)).
Proof.
  intros V; apply valid_finite in V as (He & _).
  unfold sf_add_one, sf_one; rewrite SFadd_round64 by lia.
  reflexivity.
Qed.

Lemma from_one_one : from_one sf_one.
Proof.
  right; exists 4503599627370496%positive, (-52).
  repeat split; try lia; now vm_compute.
Qed.

Lemma add_one_from_one x :
  valid_binary x = true -> SFleb (S754_zero false) x = true ->
  from_one (sf_add_one x).
Proof.
  intros V H.
  destruct (nonneg_cases x H) as [[s ->]|[->|(m & e & ->)]].
  - apply from_one_one.
  - now left.
  - rewrite add_one_finite by assumption.
    apply valid_finite in V as (He & _).
    pose proof (ival_pos m e ltac:(lia)).
    apply round64_from_one; lia.
Qed.

Lemma from_one_leb_inf y : from_one y -> SFleb y (S754_infinity false) = true.
Proof. intros [->|(m & e & -> & _)]; reflexivity. Qed.

Lemma add_one_mono x1 x2 :
  valid_binary x1 = true -> valid_binary x2 = true ->
  SFleb (S754_zero false) x1 = true -> SFleb x1 x2 = true ->
  SFleb (sf_add_one x1) (sf_add_one x2) = true.
Proof.
  intros V1 V2 H1 H.
  destruct (nonneg_cases x1 H1) as [[s ->]|[->|(m1 & e1 & ->)]].
  - assert (H2 : SFleb (S754_zero false) x2 = true)
      by (destruct x2 as [?|[]| |[] ? ?]; try discriminate; reflexivity).
    destruct (nonneg_cases x2 H2) as [[s2 ->]|[->|(m2 & e2 & ->)]];
      try reflexivity.
    change (sf_add_one (S754_zero s)) with sf_one.
    rewrite <- round64_one, add_one_finite by assumption.
    apply valid_finite in V2 as (He & _).
    pose proof (ival_pos m2 e2 ltac:(lia)).
    pose proof (pow2_pos 1074).
    apply round64_mono; lia.
  - destruct x2 as [?|[]| |[] ? ?]; try discriminate; reflexivity.
  - destruct x2 as [?|[]| |[] m2 e2]; try discriminate.
    + change (sf_add_one (S754_infinity false)) with (S754_infinity false).
      apply from_one_leb_inf, add_one_from_one; assumption.
    + rewrite !add_one_finite by assumption.
      pose proof (SFleb_ival m1 e1 m2 e2 V1 V2 H).
      apply valid_finite in V1 as (He & _).
      pose proof (ival_pos m1 e1 ltac:(lia)).
      pose proof (pow2_pos 1074).
      apply round64_mono; lia.
Qed.

Lemma add_one_max : sf_add_one sf_max = sf_max.
Proof. vm_compute; reflexivity. Qed.

Lemma finite_leb m1 e1 m2 e2 :
  e1 < e2 \/ (e1 = e2 /\ Zpos m1 <= Zpos m2) ->
  SFleb (S754_finite false m1 e1) (S754_finite false m2 e2) = true.
Proof.
  intros H; unfold SFleb, SFcompare.
  destruct (Z.compare_spec e1 e2); try reflexivity; try lia.
  change (Pos.compare_cont Eq m1 m2) with (Pos.compare m1 m2).
  destruct (Pos.compare_spec m1 m2); try reflexivity; lia.
Qed.

Lemma valid_leb_max m e :
  valid_binary (S754_finite false m e) = true ->
  SFleb (S754_finite false m e) sf_max = true.
Proof.
  intros V; apply valid_finite in V as (He & Hm & _).
  apply finite_leb.
  change (2 ^ 53) with 9007199254740992 in Hm; lia.
Qed.

(** Adding one to a finite number does not overflow. *)
Lemma add_one_finite_from_one m e :
  valid_binary (S754_finite false m e) = true ->
  exists m' e', sf_add_one (S754_finite false m e) = S754_finite false m' e'
                /\ 2 ^ 52 <= Zpos m' < 2 ^ 53 /\ -52 <= e' <= 971.
Proof.
  intros V.
  pose proof (valid_leb_max m e V) as Hmax.
  apply add_one_mono in Hmax; [|assumption|reflexivity|reflexivity].
  rewrite add_one_max in Hmax.
  destruct (add_one_from_one (S754_finite false m e) V eq_refl)
    as [E|(m' & e' & E & H)].
  - rewrite E in Hmax; discriminate.
  - eauto.
Qed.

Lemma inv_antitone y1 y2 :
  from_one y1 -> from_one y2 -> SFleb y1 y2 = true ->
  SFleb (sf_inv y2) (sf_inv y1) = true.
Proof.
  intros [->|(m1 & e1 & -> & Hm1 & He1)] [->|(m2 & e2 & -> & Hm2 & He2)] H;
    try reflexivity; try discriminate.
  - change (sf_inv (S754_infinity false)) with (S754_zero false).
    destruct (SFdiv_one_range m1 e1 Hm1 He1) as [Hpos _].
    unfold sf_inv; revert Hpos; unfold SFltb, SFleb.
    now destruct (SFcompare _ _) as [[]|].
  - now apply SFdiv_one_antitone.
Qed.

Lemma Prim2SF_one : Prim2SF 1 = sf_one.
Proof. reflexivity. Qed.

Lemma Prim2SF_zero : Prim2SF 0 = S754_zero false.
Proof. reflexivity. Qed.

Lemma Prim2SF_infinity : Prim2SF infinity = S754_infinity false.
Proof. reflexivity. Qed.

Lemma score_spec d :
  Prim2SF (1 / (1 + d)) = sf_inv (sf_add_one (Prim2SF d)).
Proof. rewrite div_spec, add_spec, Prim2SF_one; reflexivity. Qed.

Lemma add_one_spec d : Prim2SF (1 + d) = sf_add_one (Prim2SF d).
Proof. rewrite add_spec, Prim2SF_one; reflexivity. Qed.

(** For a distance that is not negative, [1 + d] is not zero. *)
Lemma add_one_nonzero d :
  (0 <=? d)%float = true -> (1 + d =? 0)%float = false.
Proof.
  rewrite leb_spec, eqb_spec, add_one_spec, Prim2SF_zero; intros H.
  destruct (add_one_from_one _ (Prim2SF_valid d) H)
    as [->|(m & e & -> & _)]; reflexivity.
Qed.

Lemma inv_range y :
  from_one y ->
  SFleb (S754_zero false) (sf_inv y) = true
  /\ SFleb (sf_inv y) sf_one = true
  /\ (y <> S754_infinity false -> SFltb (S754_zero false) (sf_inv y) = true).
Proof.
  intros [->|(m & e & -> & Hm & He)].
  - repeat split; try reflexivity; congruence.
  - destruct (SFdiv_one_range m e Hm He) as [Hpos Hle].
    fold (sf_inv (S754_finite false m e)) in *.
    repeat split; auto.
    revert Hpos; unfold SFltb, SFleb.
    now destruct (SFcompare _ _) as [[]|].
Qed.

(** The score of a non-negative distance lies in [0, 1], and in (0, 1]
    when the distance is finite. *)
Theorem score_range d :
  (0 <=? d)%float = true ->
  (0 <=? 1 / (1 + d))%float = true
  /\ (1 / (1 + d) <=? 1)%float = true
  /\ ((d <? infinity)%float = true -> (0 <? 1 / (1 + d))%float = true).
Proof.
  intros H; pose proof H as H'.
  rewrite leb_spec, Prim2SF_zero in H'.
  rewrite !leb_spec, !ltb_spec, score_spec.
  rewrite Prim2SF_zero, Prim2SF_one, Prim2SF_infinity.
  pose proof (Prim2SF_valid d) as V.
  destruct (inv_range _ (add_one_from_one _ V H')) as (H0 & H1 & Hpos).
  repeat split; auto.
  intros Hfin; apply Hpos.
  destruct (nonneg_cases _ H') as [[s E]|[E|(m & e & E)]];
    rewrite E in *; try discriminate.
  destruct (add_one_finite_from_one m e V) as (m' & e' & -> & _).
  discriminate.
Qed.

(** The score does not grow with the distance. *)
Theorem score_antitone d1 d2 :
  (0 <=? d1)%float = true -> (d1 <=? d2)%float = true ->
  (1 / (1 + d2) <=? 1 / (1 + d1))%float = true.
Proof.
  rewrite !leb_spec, !score_spec, Prim2SF_zero; intros H1 H.
  pose proof (Prim2SF_valid d1) as V1.
  pose proof (Prim2SF_valid d2) as V2.
  assert (H2 : SFleb (S754_zero false) (Prim2SF d2) = true).
  { revert H1 H; generalize (Prim2SF d1), (Prim2SF d2).
    intros [?|[]| |[] ? ?] [?|[]| |[] ? ?]; try discriminate; reflexivity. }
  apply inv_antitone; try (apply add_one_from_one; assumption).
  now apply add_one_mono.
Qed.

End Binary64Facts.

(* ------------------------------------------------------------------ *)
(** ** The score of a vector hit *)

Module ScoreFacts.
Import Models Ranking Search Binary64Facts.

Lemma vector_score_return d :
  (0 <=? d)%float = true -> vector_score d = Return (1 / (1 + d))%float.
Proof.
  intros H; unfold vector_score, PyFloat.truediv.
  now rewrite add_one_nonzero.
Qed.

(** A hit at a non-negative distance always makes a result. *)
Lemma vector_result_return_nonneg doc d :
  (0 <=? d)%float = true ->
  vector_result doc d
  = Return {| document := doc; score := (1 / (1 + d))%float;
              reason := None |}.
Proof.
  intros H; unfold vector_result, new_SearchResult.
  rewrite vector_score_return by assumption.
  destruct (score_range d H) as (-> & _); reflexivity.
Qed.



End ScoreFacts.

(* ------------------------------------------------------------------ *)
(** ** Ranking *)

Module RankingFacts.
Import Models Ranking PyFloatFacts.

Lemma valid_is_number (r : SearchResult) :
  valid r -> PyFloat.is_number (score r) = true.
Proof. unfold valid; apply leb_is_number. Qed.

Lemma insert_desc_perm (r : SearchResult) (l : list SearchResult) :
  Permutation (insert_desc r l) (r :: l).
Proof.
  induction l as [|x t IH]; simpl; [reflexivity|].
  destruct (score r <? score x)%float; [|reflexivity].
  rewrite IH; apply perm_swap.
Qed.

Lemma sort_desc_perm (l : list SearchResult) : Permutation (sort_desc l) l.
Proof.
  induction l as [|r l IH]; simpl; [reflexivity|].
  rewrite insert_desc_perm; now constructor.
Qed.

Lemma sort_desc_length (l : list SearchResult) :
  List.length (sort_desc l) = List.length l.
Proof. apply Permutation_length, sort_desc_perm. Qed.

Lemma insert_desc_sorted (r : SearchResult) (l : list SearchResult) :
  valid r -> Forall valid l -> sorted_desc l -> sorted_desc (insert_desc r l).
Proof.
  intros Hr Hl Hs; induction Hs as [|x t Ht IH Hx]; simpl.
  - repeat constructor.
  - inversion Hl as [|? ? Hvx Hvt]; subst.
    destruct (score r <? score x)%float eqn:E.
    + constructor; [now apply IH|].
      rewrite insert_desc_perm; constructor; [|exact Hx].
      now apply ltb_leb.
    + assert (Hxr : score_ge r x)
        by (apply ltb_false_leb; auto using valid_is_number).
      constructor; [now constructor|].
      constructor; [exact Hxr|].
      eapply Forall_impl; [|exact Hx].
      intros y Hy; unfold score_ge in *; eapply leb_trans; eassumption.
Qed.

Lemma sort_desc_valid (l : list SearchResult) :
  Forall valid l -> Forall valid (sort_desc l).
Proof.
  intros H; rewrite Forall_forall in *; intros x Hx; apply H.
  eapply Permutation_in; [apply sort_desc_perm | exact Hx].
Qed.

(** The sort orders every list of constructed results. *)
Lemma sort_desc_sorted (l : list SearchResult) :
  Forall valid l -> sorted_desc (sort_desc l).
Proof.
  induction 1 as [|r l Hr Hl IH]; simpl; [constructor|].
  apply insert_desc_sorted; auto using sort_desc_valid.
Qed.

End RankingFacts.

(* ------------------------------------------------------------------ *)
(** ** The orchestrator *)

Module SearchFacts.
Import Models Ranking RankingFacts Search.

Section WithCollaborators.
Variable C : Collaborators.

Abbreviation M := (M C).
Abbreviation State := (State C).
Abbreviation grows := (grows C).

Lemma bind_return {A B} (m : M A) (k : A -> M B) s a s1 :
  m s = (Return a, s1) -> bind m k s = k a s1.
Proof. unfold bind; now intros ->. Qed.

Lemma bind_raise {A B} (m : M A) (k : A -> M B) s e s1 :
  m s = (Raise e, s1) -> bind m k s = (Raise e, s1).
Proof. unfold bind; now intros ->. Qed.

Lemma bind_return_inv {A B} (m : M A) (k : A -> M B) s b s' :
  bind m k s = (Return b, s') ->
  exists a s1, m s = (Return a, s1) /\ k a s1 = (Return b, s').
Proof.
  unfold bind; destruct (m s) as [[a|e] s1]; intros H; [eauto|discriminate].
Qed.

Lemma bind_assoc {A B D} (m : M A) (k : A -> M B) (h : B -> M D) s :
  bind (bind m k) h s = bind m (fun a => bind (k a) h) s.
Proof. unfold bind; now destruct (m s) as [[a|e] s1]. Qed.

(** [search_nonempty] is its vector path followed by the graph path. *)
Lemma search_nonempty_split query documents s :
  search_nonempty C query documents s
  = bind (vector_path C query documents) (augment C query) s.
Proof.
  unfold search_nonempty, vector_path, augment, bind.
  destruct (load_FAISS C documents s) as [[ix|e] s1]; [|reflexivity].
  unfold log.
  destruct (outside _ _) as [[hits|e] s2]; [|reflexivity].
  unfold lift; destruct (vector_results hits []); reflexivity.
Qed.

(** *** Building results *)

Lemma new_SearchResult_return d x r res :
  new_SearchResult d x r = Return res ->
  res = {| document := d; score := x; reason := r |} /\ valid res.
Proof.
  unfold new_SearchResult, valid.
  destruct (0 <=? x)%float eqn:E; [|discriminate].
  intros [= <-]; simpl; auto.
Qed.

Lemma vector_result_return doc distance r :
  vector_result doc distance = Return r ->
  of_hit (doc, distance) r /\ valid r.
Proof.
  unfold vector_result, of_hit.
  destruct (vector_score distance) as [x|e] eqn:E; [|discriminate].
  intros H; apply new_SearchResult_return in H as [-> Hv]; simpl; auto.
Qed.

Lemma vector_results_return hits :
  forall acc vec,
    vector_results hits acc = Return vec ->
    exists rs, vec = acc ++ rs /\ Forall2 of_hit hits rs /\ Forall valid rs.
Proof.
  induction hits as [|[doc distance] hits IH]; simpl; intros acc vec H.
  - injection H as <-; exists []; rewrite app_nil_r; auto.
  - destruct (vector_result doc distance) as [r|e] eqn:E; [|discriminate].
    apply vector_result_return in E as [Hh Hv].
    apply IH in H as (rs & -> & Hrs & Hvs).
    exists (r :: rs); rewrite <- app_assoc; simpl; auto.
Qed.

(** The loop succeeds as soon as every turn does. *)
Lemma vector_results_total hits :
  Forall (fun h => is_return (vector_result (fst h) (snd h)) = true) hits ->
  forall acc, exists vec, vector_results hits acc = Return vec.
Proof.
  induction 1 as [|[doc distance] hits Hh _ IH]; simpl; intros acc; eauto.
  simpl in Hh; destruct (vector_result doc distance); [apply IH|discriminate].
Qed.

(** With distances that are not negative the loop always succeeds. *)
Lemma vector_results_nonneg hits :
  Forall (fun h => (0 <=? snd h)%float = true) hits ->
  forall acc, exists vec, vector_results hits acc = Return vec.
Proof.
  intros H; apply vector_results_total.
  eapply Forall_impl; [|exact H].
  intros [doc d] Hd; simpl in *.
  now rewrite ScoreFacts.vector_result_return_nonneg.
Qed.

(** *** The graph stub *)

Lemma search_knowledgegraph_run q (s : State) :
  search_knowledgegraph C q s
  = (Return [graph_result q], logged (CallSearchKnowledgegraph q) s).
Proof. reflexivity. Qed.

Lemma graph_result_valid q : valid (graph_result q).
Proof. reflexivity. Qed.

(** *** The vector path *)

Lemma vector_path_return query documents (s s2 : State) vec :
  vector_path C query documents s = (Return vec, s2) ->
  exists ix s1 hits,
    load_FAISS C documents s = (Return ix, s1)
    /\ similarity_search_with_score C (store ix) query
         (List.length documents) (world s1) = (Return hits, world s2)
    /\ Forall2 of_hit hits vec
    /\ Forall valid vec.
Proof.
  unfold vector_path, bind.
  destruct (load_FAISS C documents s) as [[ix|e] s1]; [|discriminate].
  unfold log, outside; simpl.
  destruct (similarity_search_with_score _ _ _ _ _) as [[hits|e] w2] eqn:Hs;
    [|discriminate].
  unfold lift; intros [= Hv <-]; simpl.
  apply vector_results_return in Hv as (rs & -> & Hrs & Hvs).
  exists ix, s1, hits; repeat split; auto.
Qed.

(** The vector path returns when the index is there and the similarity
    search answers with distances that are not negative. *)
Lemma vector_path_total query documents (s s1 : State) ix hits w2 :
  load_FAISS C documents s = (Return ix, s1) ->
  similarity_search_with_score C (store ix) query
    (List.length documents) (world s1) = (Return hits, w2) ->
  Forall (fun h => (0 <=? snd h)%float = true) hits ->
  exists vec s2, vector_path C query documents s = (Return vec, s2).
Proof.
  intros Hl Hs Hd.
  destruct (vector_results_nonneg hits Hd []) as [vec Hv].
  unfold vector_path; rewrite bind_return with (1 := Hl).
  unfold bind, log, outside, lift; simpl.
  rewrite Hs, Hv; eauto.
Qed.

(** *** The graph path *)

Lemma augment_none query results (s s3 : State) :
  text_to_cypher C query s = (Return None, s3) ->
  augment C query results s = (Return (sort_desc results), s3).
Proof. unfold augment, bind; now intros ->. Qed.

Lemma augment_some query results q (s s3 : State) :
  text_to_cypher C query s = (Return (Some q), s3) ->
  augment C query results s
  = (Return (sort_desc (results ++ [graph_result q])),
     logged (CallSearchKnowledgegraph q) s3).
Proof. unfold augment, bind; now intros ->. Qed.

Lemma augment_raise query results e (s s3 : State) :
  text_to_cypher C query s = (Raise e, s3) ->
  augment C query results s = (Raise e, s3).
Proof. unfold augment, bind; now intros ->. Qed.

Lemma augment_return query results l (s s' : State) :
  augment C query results s = (Return l, s') ->
  exists cy s3,
    text_to_cypher C query s = (Return cy, s3)
    /\ l = sort_desc (results ++ match cy with
                                 | Some q => [graph_result q]
                                 | None => []
                                 end).
Proof.
  unfold augment, bind.
  destruct (text_to_cypher C query s) as [[[q|]|e] s3]; simpl;
    intros [= <- _]; [exists (Some q), s3|exists None, s3];
    rewrite ?app_nil_r; auto.
Qed.

(** *** What was invoked *)

Lemma grows_ret {A} (a : A) : grows (ret a).
Proof. intros s; now exists []. Qed.

Lemma grows_lift {A} (r : result A) : grows (lift r).
Proof. intros s; now exists []. Qed.

Lemma grows_log e : grows (log e).
Proof. intros s; now exists [e]. Qed.

Lemma grows_outside {A} (f : World C -> result A * World C) :
  grows (outside f).
Proof. intros s; unfold outside; destruct (f (world s)); now exists []. Qed.

Lemma grows_get_cache : grows (get_cache C).
Proof. intros s; now exists []. Qed.

Lemma grows_set_cache c : grows (set_cache C c).
Proof. intros s; now exists []. Qed.

Lemma grows_new_Index st : grows (new_Index C st).
Proof. intros s; now exists []. Qed.

Lemma grows_bind {A B} (m : M A) (k : A -> M B) :
  grows m -> (forall a, grows (k a)) -> grows (bind m k).
Proof.
  intros Hm Hk s; unfold bind.
  destruct (Hm s) as [evs Hevs].
  destruct (m s) as [[a|e] s1]; simpl in *.
  - destruct (Hk a s1) as [evs' Hevs'].
    exists (evs' ++ evs); now rewrite Hevs', Hevs, app_assoc.
  - now exists evs.
Qed.

Lemma grows_try_except {A} (body : M A) (handler : exn -> M A) :
  grows body -> (forall e, grows (handler e)) ->
  grows (try_except body handler).
Proof.
  intros Hm Hk s; unfold try_except.
  destruct (Hm s) as [evs Hevs].
  destruct (body s) as [[a|e] s1]; simpl in *.
  - now exists evs.
  - destruct (Hk e s1) as [evs' Hevs'].
    exists (evs' ++ evs); now rewrite Hevs', Hevs, app_assoc.
Qed.

Create HintDb grows.
#[local] Hint Resolve grows_ret grows_lift grows_log grows_outside
  grows_get_cache grows_set_cache grows_new_Index : grows.
#[local] Hint Extern 2 (grows (bind _ _)) =>
  apply grows_bind; [|intros ?] : grows.
#[local] Hint Extern 2 (grows (try_except _ _)) =>
  apply grows_try_except; [|intros ?] : grows.

Lemma grows_text_to_cypher text : grows (text_to_cypher C text).
Proof. unfold text_to_cypher; auto 20 with grows. Qed.

Lemma grows_load_FAISS documents : grows (load_FAISS C documents).
Proof.
  unfold load_FAISS, load_FAISS_wrapped.
  apply grows_bind; [auto with grows|intros _].
  apply grows_bind; [auto with grows|intros c].
  destruct (LruCache.lookup _ _ _); auto 20 with grows.
Qed.

Lemma grows_search_knowledgegraph q : grows (search_knowledgegraph C q).
Proof. unfold search_knowledgegraph; auto 20 with grows. Qed.

#[local] Hint Resolve grows_text_to_cypher grows_load_FAISS
  grows_search_knowledgegraph : grows.

Lemma grows_augment query results : grows (augment C query results).
Proof.
  unfold augment.
  apply grows_bind; [auto with grows|intros [q|]]; auto 20 with grows.
Qed.

(** After the index is there, the similarity search is the next call. *)
Lemma search_nonempty_after_load query documents (s s1 : State) ix :
  load_FAISS C documents s = (Return ix, s1) ->
  exists evs,
    trace (snd (search_nonempty C query documents s))
    = evs ++ CallSimilaritySearch query (List.length documents) :: trace s1.
Proof.
  intros Hl; unfold search_nonempty.
  rewrite bind_return with (1 := Hl).
  match goal with
  | |- context [bind (log ?e) ?k s1] =>
      change (bind (log e) k s1) with (k tt (logged e s1));
      assert (Hg : grows (k tt))
  end.
  { apply grows_bind; [auto with grows|intros hits].
    apply grows_bind; [auto with grows|intros results].
    apply grows_bind; [auto with grows|intros cy].
    destruct cy; auto 20 with grows. }
  exact (Hg _).
Qed.

(** The lookup of the index is the first call of [search_nonempty]. *)
Lemma search_nonempty_first_call query documents (s : State) :
  exists evs,
    trace (snd (search_nonempty C query documents s))
    = evs ++ CallLoadFAISS documents :: trace s.
Proof.
  destruct (load_FAISS C documents s) as [[ix|e] s1] eqn:Hl.
  - destruct (search_nonempty_after_load query _ _ _ _ Hl) as [evs ->].
    revert Hl; unfold load_FAISS.
    match goal with
    | |- context [bind (log ?e) ?k s] =>
        change (bind (log e) k s) with (k tt (logged e s));
        assert (Hg : grows (k tt))
    end.
    { apply grows_bind; [auto with grows|intros c].
      unfold load_FAISS_wrapped.
      destruct (LruCache.lookup _ _ _); auto 20 with grows. }
    intros Hl; destruct (Hg (logged (CallLoadFAISS documents) s)) as [evs' H].
    rewrite Hl in H; simpl in H; rewrite H.
    exists (evs ++ CallSimilaritySearch query (List.length documents) :: evs').
    now rewrite <- app_assoc.
  - unfold search_nonempty; rewrite bind_raise with (1 := Hl); simpl.
    revert Hl; unfold load_FAISS.
    match goal with
    | |- context [bind (log ?e) ?k s] =>
        change (bind (log e) k s) with (k tt (logged e s));
        assert (Hg : grows (k tt))
    end.
    { apply grows_bind; [auto with grows|intros c].
      unfold load_FAISS_wrapped.
      destruct (LruCache.lookup _ _ _); auto 20 with grows. }
    intros Hl; destruct (Hg (logged (CallLoadFAISS documents) s)) as [evs' H].
    rewrite Hl in H; simpl in H; rewrite H; eauto.
Qed.

(** *** The translator *)

(** A failure of [OpenAI()] is raised before the [try]. *)
Lemma text_to_cypher_client_failure text (s : State) e w :
  new_OpenAI C (world s) = (Raise e, w) ->
  fst (text_to_cypher C text s) = Raise e.
Proof.
  intros H; unfold text_to_cypher, bind, log, outside; simpl.
  now rewrite H.
Qed.

(** So is a failure while the prompt is put together. *)
Lemma text_to_cypher_prompt_failure text (s : State) llm w parser e :
  new_OpenAI C (world s) = (Return llm, w) ->
  new_PydanticOutputParser C = Return parser ->
  parser_schema C parser = Raise e ->
  fst (text_to_cypher C text s) = Raise e.
Proof.
  intros H1 H2 H3; unfold text_to_cypher, bind, log, outside, lift; simpl.
  now rewrite H1, H2, H3.
Qed.

(** Inside the [try], a failure of the model call or of the parse is
    caught and answered by [None]. *)
Lemma text_to_cypher_model_failure text (s : State) llm w parser schema e w' :
  new_OpenAI C (world s) = (Return llm, w) ->
  new_PydanticOutputParser C = Return parser ->
  parser_schema C parser = Return schema ->
  apredict C llm (prompt_of schema text) w = (Raise e, w') ->
  fst (text_to_cypher C text s) = Return None.
Proof.
  intros H1 H2 H3 H4.
  unfold text_to_cypher, try_except, bind, log, outside, lift; simpl.
  now rewrite H1, H2, H3; simpl; rewrite H4.
Qed.

Lemma text_to_cypher_parse_failure text (s : State) llm w parser schema
    raw w' e :
  new_OpenAI C (world s) = (Return llm, w) ->
  new_PydanticOutputParser C = Return parser ->
  parser_schema C parser = Return schema ->
  apredict C llm (prompt_of schema text) w = (Return raw, w') ->
  parse C parser raw = Raise e ->
  fst (text_to_cypher C text s) = Return None.
Proof.
  intros H1 H2 H3 H4 H5.
  unfold text_to_cypher, try_except, bind, log, outside, lift; simpl.
  now rewrite H1, H2, H3; simpl; rewrite H4; simpl; rewrite H5.
Qed.

(** A failure on the vector path is not caught. *)
Lemma vector_failure_propagates query documents (s s2 : State) e :
  PyStr.is_empty query = false ->
  vector_path C query documents s = (Raise e, s2) ->
  search_documents C query documents s = (Raise e, s2).
Proof.
  intros Hq Hv; unfold search_documents; rewrite Hq.
  rewrite search_nonempty_split; now apply bind_raise.
Qed.

(** *** The claims on [search_documents] *)


(** C4.  Whatever [search_documents] returns is sorted by score in
    descending order: the score of every element is greater than or equal
    to the score of every later element, with or without graph results. *)
Theorem search_documents_sorted query documents (s s' : State) l :
  search_documents C query documents s = (Return l, s') ->
  sorted_desc l.
Proof.
  unfold search_documents; destruct (PyStr.is_empty query).
  - intros [= <- _]; constructor.
  - rewrite search_nonempty_split; intros H.
    apply bind_return_inv in H as (vec & s2 & Hv & Ha).
    apply vector_path_return in Hv as (_ & _ & _ & _ & _ & _ & Hvalid).
    apply augment_return in Ha as (cy & s3 & _ & ->).
    apply sort_desc_sorted, Forall_app; split; [exact Hvalid|].
    destruct cy; repeat constructor.
Qed.

(** C6.  When the vector path yields its results and the translator
    returns no translated query, [search_documents] returns exactly the
    vector results, one per hit and none from the graph, sorted by score in
    descending order; the graph search is not called. *)
Theorem translator_failure_vector_only query documents (s s2 s3 : State) vec :
  PyStr.is_empty query = false ->
  vector_path C query documents s = (Return vec, s2) ->
  text_to_cypher C query s2 = (Return None, s3) ->
  search_documents C query documents s = (Return (sort_desc vec), s3)
  /\ sorted_desc (sort_desc vec)
  /\ Permutation (sort_desc vec) vec
  /\ exists ix s1 hits,
       load_FAISS C documents s = (Return ix, s1)
       /\ similarity_search_with_score C (store ix) query
            (List.length documents) (world s1) = (Return hits, world s2)
       /\ Forall2 of_hit hits vec.
Proof.
  intros Hq Hv Ht; split.
  - unfold search_documents; rewrite Hq, search_nonempty_split.
    rewrite bind_return with (1 := Hv); now apply augment_none.
  - apply vector_path_return in Hv as (ix & s1 & hits & Hl & Hs & Hh & Hval).
    split; [now apply sort_desc_sorted|].
    split; [apply sort_desc_perm|].
    exists ix, s1, hits; auto.
Qed.


(** C8.  On the empty query [search_documents] returns the empty list at
    once, whatever the documents: no exception, and the process is left as
    it was, so neither the vector index nor the translator nor the graph
    search was called. *)
Theorem search_documents_empty_query documents (s : State) :
  search_documents C EmptyString documents s = (Return [], s)
  /\ trace (snd (search_documents C EmptyString documents s)) = trace s
  /\ cache (snd (search_documents C EmptyString documents s)) = cache s
  /\ world (snd (search_documents C EmptyString documents s)) = world s
  /\ built (snd (search_documents C EmptyString documents s)) = built s.
Proof.
  assert (H : search_documents C EmptyString documents s = (Return [], s))
    by reflexivity.
  now rewrite H.
Qed.


End WithCollaborators.
End SearchFacts.

(* ------------------------------------------------------------------ *)
(** ** The memo table of [load_FAISS] *)

Module LruCacheFacts.
Import LruCache.

Section Cache.
Context {K V : Type}.
Variable K_eq_dec : forall a b : K, {a = b} + {a <> b}.

Lemma lookup_head k v (c : t K V) : lookup K_eq_dec k ((k, v) :: c) = Some v.
Proof. simpl; destruct (K_eq_dec k k); congruence. Qed.

Lemma remove_head k v (c : t K V) : remove K_eq_dec k ((k, v) :: c) = c.
Proof. simpl; destruct (K_eq_dec k k); congruence. Qed.

(** A hit on the most recent entry leaves the table as it is. *)
Lemma touch_head k v (c : t K V) :
  touch K_eq_dec k v ((k, v) :: c) = (k, v) :: c.
Proof. unfold touch; now rewrite remove_head. Qed.

Lemma remove_length k v (c : t K V) :
  lookup K_eq_dec k c = Some v ->
  S (List.length (remove K_eq_dec k c)) = List.length c.
Proof.
  induction c as [|[k' v'] c IH]; simpl; [discriminate|].
  destruct (K_eq_dec k k'); [reflexivity|].
  intros H; simpl; now rewrite IH.
Qed.

Lemma touch_length k v (c : t K V) :
  lookup K_eq_dec k c = Some v ->
  List.length (touch K_eq_dec k v c) = List.length c.
Proof. intros H; unfold touch; simpl; now apply remove_length with v. Qed.

Lemma removelast_length {A} (l : list A) :
  List.length (removelast l) = pred (List.length l).
Proof.
  rewrite removelast_firstn_len, length_firstn; lia.
Qed.

(** The table never holds more than [maxsize] entries. *)
Lemma store_length k v (c : t K V) :
  List.length c <= maxsize -> List.length (store k v c) <= maxsize.
Proof.
  unfold store; intros H.
  destruct (maxsize <=? List.length c) eqn:E; simpl.
  - rewrite removelast_length; apply Nat.leb_le in E.
    unfold maxsize in *; lia.
  - apply Nat.leb_gt in E; lia.
Qed.

Lemma lookup_store k v (c : t K V) : lookup K_eq_dec k (store k v c) = Some v.
Proof.
  unfold store; destruct (maxsize <=? List.length c); apply lookup_head.
Qed.

End Cache.
End LruCacheFacts.

Module MemoFacts.
Import Models Search LruCache LruCacheFacts SearchFacts.

Section WithCollaborators.
Variable C : Collaborators.

Abbreviation State := (State C).

(** How a call of [load_FAISS] that returns went: a hit, which builds
    nothing, or a miss, which built one object and stored it. *)
Lemma load_FAISS_return documents (s s1 : State) ix :
  load_FAISS C documents s = (Return ix, s1) ->
  (lookup docs_eq_dec documents (cache s) = Some ix
   /\ s1 = {| world := world s;
              cache := touch docs_eq_dec documents ix (cache s);
              built := built s;
              trace := CallLoadFAISS documents :: trace s |})
  \/ (lookup docs_eq_dec documents (cache s) = None
      /\ cache s1 = store documents ix (cache s)
      /\ built s1 = S (built s)
      /\ oid ix = built s).
Proof.
  unfold load_FAISS, bind, log, get_cache; simpl.
  destruct (lookup docs_eq_dec documents (cache s)) as [ix0|] eqn:El.
  - unfold set_cache, ret; simpl; intros [= <- <-]; left; auto.
  - unfold load_FAISS_wrapped, bind, log, outside; simpl.
    destruct (new_OpenAIEmbeddings C (world s)) as [[em|e] w]; simpl;
      [|discriminate].
    destruct (FAISS_from_documents C documents em w) as [[st|e] w']; simpl;
      [|discriminate].
    intros [= <- <-]; right; simpl; auto.
Qed.

Lemma load_FAISS_front documents (s s1 : State) ix :
  load_FAISS C documents s = (Return ix, s1) ->
  exists rest, cache s1 = (documents, ix) :: rest.
Proof.
  intros H; apply load_FAISS_return in H as [[_ ->]|(_ & -> & _)].
  - simpl; unfold touch; eauto.
  - unfold store; destruct (maxsize <=? _); eauto.
Qed.

(** A call on documents met at the front of the table is a hit. *)
Lemma load_FAISS_hit documents (s : State) ix rest :
  cache s = (documents, ix) :: rest ->
  load_FAISS C documents s = (Return ix, logged (CallLoadFAISS documents) s).
Proof.
  intros Hc; unfold load_FAISS, bind, log, get_cache; simpl.
  rewrite Hc, lookup_head, touch_head.
  unfold set_cache, ret, logged; simpl; now rewrite Hc.
Qed.


End WithCollaborators.
End MemoFacts.

(* ------------------------------------------------------------------ *)
(** ** The statements on scripted collaborators *)

Module Checks.
Import Models Ranking Search Scripted SearchFacts MemoFacts.
Local Open Scope string_scope.

(** Goals settled by running the definitions. *)
Ltac run := vm_compute; reflexivity.

(** The runs of [search_documents] on the scripts. *)
Example search_all_up :
  fst (search_documents (collaborators all_up) "q" docs (fresh all_up))
  = Return
      [ {| document := doc "near"; score := 1; reason := None |};
        {| document := doc "MATCH (n) RETURN n"; score := graph_score;
           reason := Some "test" |};
        {| document := doc "far"; score := 0.5; reason := None |} ].
Proof. run. Qed.

Example search_model_down :
  fst (search_documents (collaborators model_down) "q" docs
         (fresh model_down))
  = Return
      [ {| document := doc "near"; score := 1; reason := None |};
        {| document := doc "far"; score := 0.5; reason := None |} ].
Proof. run. Qed.

Example search_embeddings_down :
  fst (search_documents (collaborators embeddings_down) "q" docs
         (fresh embeddings_down))
  = Raise (ExternalError 1).
Proof. run. Qed.

Example search_no_api_key :
  fst (search_documents (collaborators no_api_key) "q" docs
         (fresh no_api_key))
  = Raise (ExternalError 3).
Proof. run. Qed.


Lemma search_documents_sorted_witness :
  let C := collaborators all_up in
  exists l s',
    search_documents C "q" docs (fresh all_up) = (Return l, s')
    /\ sorted_desc l.
Proof.
  intros C; eexists _, _; split; [run|].
  eapply (search_documents_sorted C "q" docs (fresh all_up)); run.
Defined.

Lemma translator_failure_vector_only_witness :
  let C := collaborators model_down in
  exists vec s2 s3,
    PyStr.is_empty "q" = false
    /\ vector_path C "q" docs (fresh model_down) = (Return vec, s2)
    /\ text_to_cypher C "q" s2 = (Return None, s3)
    /\ search_documents C "q" docs (fresh model_down)
       = (Return (sort_desc vec), s3).
Proof.
  intros C; eexists _, _, _.
  split; [run|]. split; [run|]. split; [run|].
  eapply (translator_failure_vector_only C "q" docs (fresh model_down));
    run.
Defined.




(** The key is the ordered sequence: the same documents in another order
    are another key, and get an index of their own. *)
Example key_is_ordered :
  let C := collaborators all_up in
  let s1 := snd (load_FAISS C [doc "a"; doc "b"] (fresh all_up)) in
  cached [doc "a"; doc "b"] s1 = true
  /\ cached [doc "b"; doc "a"] s1 = false
  /\ fst (load_FAISS C [doc "a"; doc "b"] s1)
     = Return (Build_Index C 0 [doc "a"; doc "b"])
  /\ fst (load_FAISS C [doc "b"; doc "a"] s1)
     = Return (Build_Index C 1 [doc "b"; doc "a"]).
Proof. repeat split; run. Qed.


End Checks.

Module PyStrMore.
Import PyStr PyStrFacts LexicalSteps.

Lemma split_from_lstrip (s : string) :
  split_from EmptyString (lstrip s) = split_from EmptyString s.
Proof.
  induction s as [|c s IH]; simpl; [reflexivity|].
  destruct (is_space c) eqn:E; simpl; [exact IH|].
  now rewrite E.
Qed.

(** A string of whitespace has no terms. *)
Lemma split_from_blank (s : string) :
  is_empty (rstrip s) = true -> split_from EmptyString s = [].
Proof.
  induction s as [|c s IH]; simpl; [reflexivity|].
  destruct (is_space c) eqn:E; simpl.
  - destruct (is_empty (rstrip s)) eqn:R; simpl; [intros _; now apply IH|].
    discriminate.
  - discriminate.
Qed.

Lemma split_from_rstrip (s : string) :
  forall cur, split_from cur (rstrip s) = split_from cur s.
Proof.
  induction s as [|c s IH]; intros cur; simpl; [reflexivity|].
  destruct (is_space c) eqn:E; simpl.
  - destruct (is_empty (rstrip s)) eqn:R; simpl.
    + rewrite (split_from_blank s R); now destruct (is_empty cur).
    + now rewrite E, IH.
  - now rewrite E, IH.
Qed.

(** [strip()] before [split()] changes nothing. *)
Lemma split_strip (s : string) : split (strip s) = split s.
Proof.
  unfold split, strip; now rewrite split_from_rstrip, split_from_lstrip.
Qed.

Lemma lstrip_head (s : string) :
  match lstrip s with
  | EmptyString => True
  | String c _ => is_space c = false
  end.
Proof.
  induction s as [|c s IH]; simpl; [exact I|].
  destruct (is_space c) eqn:E; [exact IH|exact E].
Qed.

Lemma rstrip_idempotent (s : string) : rstrip (rstrip s) = rstrip s.
Proof.
  induction s as [|c s IH]; simpl; [reflexivity|].
  destruct (is_space c && is_empty (rstrip s)) eqn:E; [reflexivity|].
  simpl; now rewrite IH, E.
Qed.

Lemma lstrip_fixed (s : string) :
  match s with
  | EmptyString => True
  | String c _ => is_space c = false
  end -> lstrip s = s.
Proof. destruct s as [|c s]; simpl; [reflexivity|now intros ->]. Qed.

Lemma rstrip_head (s : string) :
  match s with
  | EmptyString => True
  | String c _ => is_space c = false
  end ->
  match rstrip s with
  | EmptyString => True
  | String c _ => is_space c = false
  end.
Proof.
  destruct s as [|c s]; simpl; [auto|].
  intros H; rewrite H; simpl; exact H.
Qed.

(** [strip()] is idempotent. *)
Lemma strip_idempotent (s : string) : strip (strip s) = strip s.
Proof.
  unfold strip.
  rewrite (lstrip_fixed (rstrip (lstrip s))).
  - apply rstrip_idempotent.
  - apply rstrip_head, lstrip_head.
Qed.

(** The terms of a query that is empty once stripped. *)
Lemma split_blank (s : string) : is_empty (strip s) = true -> split s = [].
Proof.
  intros H; rewrite <- split_strip.
  now rewrite (is_empty_true _ H).
Qed.

Lemma append_assoc (a b c : string) :
  String.append (String.append a b) c = String.append a (String.append b c).
Proof. induction a; simpl; congruence. Qed.

Lemma split_from_app (a b : string) :
  forall cur,
    split_from cur (String.append a (String (ascii_of_nat 32) b))
    = split_from cur a ++ split_from EmptyString b.
Proof.
  induction a as [|c a IH]; intros cur; simpl.
  - change (is_space (ascii_of_nat 32)) with true; cbv iota.
    now destruct (is_empty cur).
  - destruct (is_space c).
    + destruct (is_empty cur); simpl; now rewrite IH.
    + apply IH.
Qed.

Lemma lower_append (a b : string) :
  lower (String.append a b) = String.append (lower a) (lower b).
Proof. induction a; simpl; congruence. Qed.

(** The scan of [count] never counts more matches than fit. *)
Lemma count_scan_fits (sub s : string) :
  is_empty sub = false ->
  forall skip,
    count_scan sub s skip * String.length sub + skip
    <= Nat.max (String.length s) skip.
Proof.
  intros Hsub.
  assert (HL : 1 <= String.length sub) by (destruct sub; simpl in *; [discriminate|lia]).
  induction s as [|c s IH]; intros skip; simpl String.length; simpl count_scan.
  - lia.
  - destruct skip as [|k].
    + destruct (startswith sub (String c s)) eqn:E.
      * apply startswith_length in E; simpl in E.
        specialize (IH (String.length sub - 1)). nia.
      * specialize (IH 0); lia.
    + specialize (IH k); lia.
Qed.

Lemma count_fits (s sub : string) :
  is_empty sub = false ->
  count s sub * String.length sub <= String.length s.
Proof.
  intros H; unfold count; rewrite H.
  pose proof (count_scan_fits sub s H 0); lia.
Qed.

(** The scan finds a match whenever there is one. *)
Lemma count_scan_pos (sub s : string) :
  0 < occurrences sub s -> is_empty sub = false -> 0 < count_scan sub s 0.
Proof.
  intros H Hsub; induction s as [|c s IH]; simpl in *.
  - rewrite Hsub in H; lia.
  - destruct (startswith sub (String c s)); [lia|].
    apply IH; lia.
Qed.

Lemma startswith_append (sub suf : string) :
  startswith sub (String.append sub suf) = true.
Proof.
  induction sub as [|a sub IH]; simpl; [reflexivity|].
  now rewrite Ascii.eqb_refl, IH.
Qed.

Lemma startswith_split (sub s : string) :
  startswith sub s = true -> exists suf, s = String.append sub suf.
Proof.
  revert s; induction sub as [|a sub IH]; intros s H; simpl in *.
  - now exists s.
  - destruct s as [|b s]; [discriminate|].
    apply andb_true_iff in H as [H1 H2].
    apply Ascii.eqb_eq in H1 as ->.
    destruct (IH s H2) as [suf ->]; now exists suf.
Qed.

(** A position where [sub] starts, exactly when [sub in s]. *)
Lemma occurrences_contains (sub s : string) :
  0 < occurrences sub s <-> contains s sub.
Proof.
  split.
  - induction s as [|c s IH]; simpl.
    + destruct sub; simpl; [intros _; now exists EmptyString, EmptyString|lia].
    + destruct (startswith sub (String c s)) eqn:E.
      * intros _; apply startswith_split in E as [suf E].
        exists EmptyString, suf; exact E.
      * intros H; destruct IH as (pre & suf & ->); [lia|].
        now exists (String c pre), suf.
  - intros (pre & suf & ->).
    induction pre as [|c pre IH]; simpl.
    + destruct (String.append sub suf) eqn:E.
      * destruct sub; [simpl; lia|discriminate].
      * simpl; rewrite <- E, startswith_append; lia.
    + lia.
Qed.

Lemma count_pos_contains (s sub : string) :
  is_empty sub = false -> (0 < count s sub <-> contains s sub).
Proof.
  intros H; rewrite <- occurrences_contains; split.
  - pose proof (count_le_occurrences sub s H); lia.
  - intros Ho; unfold count; rewrite H; now apply count_scan_pos.
Qed.

End PyStrMore.

(* ------------------------------------------------------------------ *)
(** ** [float(n)] *)

Module OfIntFacts.
Import Binary64 Binary64Facts.
Local Open Scope Z_scope.

Lemma from_one_valid y : from_one y -> valid_binary y = true.
Proof.
  intros [->|(m & e & -> & Hm & He)]; [reflexivity|].
  unfold SpecFloat.valid_binary, bounded, canonical_mantissa.
  rewrite fexp_eq, digits2_log2.
  rewrite (log2_range (Zpos m) 52) by lia.
  change (emax - prec) with 971.
  apply andb_true_iff; split; [apply Z.eqb_eq|apply Z.leb_le]; lia.
Qed.

(** [float(n)] of a positive [int] is [n] rounded. *)
Lemma of_int_spec n :
  0 < n -> Prim2SF (PyFloat.of_int n) = round64 (n * 2 ^ 1074).
Proof.
  intros Hn; unfold PyFloat.of_int.
  destruct n as [|p|p]; try lia.
  unfold binary_normalize; rewrite binary_round_round64 by lia.
  change (0 + 1074) with 1074.
  apply Prim2SF_SF2Prim, from_one_valid, round64_from_one.
  pose proof (pow2_pos 1074); nia.
Qed.

Lemma of_int_pos n : 0 < n -> (0 <? PyFloat.of_int n)%float = true.
Proof.
  intros Hn; rewrite ltb_spec, of_int_spec, Prim2SF_zero by assumption.
  assert (H : from_one (round64 (n * 2 ^ 1074)))
    by (apply round64_from_one; pose proof (pow2_pos 1074); nia).
  destruct H as [->|(m & e & -> & _)]; reflexivity.
Qed.

(** [float] keeps the order of the non-negative integers. *)
Lemma of_int_mono a b :
  0 <= a <= b -> (PyFloat.of_int a <=? PyFloat.of_int b)%float = true.
Proof.
  intros H.
  destruct (Z.eq_dec a 0) as [->|Ha].
  - destruct (Z.eq_dec b 0) as [->|Hb]; [reflexivity|].
    apply PyFloatFacts.ltb_leb, of_int_pos; lia.
  - rewrite leb_spec, !of_int_spec by lia.
    apply round64_mono; pose proof (pow2_pos 1074); nia.
Qed.

(** Below [2^53] the conversion is exact. *)
Lemma of_int_exact n :
  0 < n < 2 ^ 53 -> ival (Prim2SF (PyFloat.of_int n)) = n * 2 ^ 1074.
Proof.
  intros Hn; rewrite of_int_spec by lia.
  pose proof (Z.log2_nonneg n) as Hl0.
  assert (Hl : Z.log2 n <= 52)
    by (apply Z.lt_succ_r, Z.log2_lt_pow2; lia).
  destruct (Z.log2_spec n ltac:(lia)) as [Hlo Hhi].
  rewrite <- Z.add_1_r in Hhi.
  unfold round64.
  rewrite Z.log2_mul_pow2 by lia.
  set (L := Z.log2 n) in *.
  replace (Z.max (1074 + L + 1 - 53) 0) with (0 + (L + 1022)) by lia.
  assert (E : n * 2 ^ 1074 = (n * 2 ^ (52 - L)) * 2 ^ (L + 1022)).
  { rewrite <- Z.mul_assoc, <- Z.pow_add_r by lia.
    f_equal; f_equal; lia. }
  pose proof (pow2_pos (52 - L) ltac:(lia)) as Hp.
  rewrite E at 1.
  rewrite rnd_shift_scale by nia.
  change (rnd_shift (n * 2 ^ (52 - L)) 0) with (n * 2 ^ (52 - L)).
  assert (Hm : 2 ^ 52 <= n * 2 ^ (52 - L) < 2 ^ 53).
  { replace (2 ^ 52) with (2 ^ L * 2 ^ (52 - L))
      by (rewrite <- Z.pow_add_r by lia; f_equal; lia).
    replace (2 ^ 53) with (2 ^ (L + 1) * 2 ^ (52 - L))
      by (rewrite <- Z.pow_add_r by lia; f_equal; lia).
    nia. }
  unfold norm, out.
  destruct (Z.eqb_spec (n * 2 ^ (52 - L)) (2 ^ 53)); [lia|].
  destruct (Z.leb_spec (0 + (L + 1022) - 1074) 971); [|lia].
  unfold ival; rewrite Z2Pos.id by lia.
  rewrite E; f_equal; f_equal; lia.
Qed.

Lemma of_int_inj a b :
  0 <= a < 2 ^ 53 -> 0 <= b < 2 ^ 53 ->
  PyFloat.of_int a = PyFloat.of_int b -> a = b.
Proof.
  assert (Hz : forall n, 0 < n < 2 ^ 53 ->
                 PyFloat.of_int 0 = PyFloat.of_int n -> False).
  { intros n Hn E.
    pose proof (of_int_pos n ltac:(lia)) as Hp.
    rewrite <- E in Hp; discriminate. }
  intros Ha Hb E.
  destruct (Z.eq_dec a 0) as [->|Na], (Z.eq_dec b 0) as [->|Nb];
    try reflexivity.
  - exfalso; apply (Hz b); [lia|assumption].
  - exfalso; apply (Hz a); [lia|now symmetry].
  - pose proof (of_int_exact a ltac:(lia)) as Ea.
    pose proof (of_int_exact b ltac:(lia)) as Eb.
    rewrite E in Ea; rewrite Ea in Eb.
    pose proof (pow2_pos 1074); nia.
Qed.

End OfIntFacts.

(* ------------------------------------------------------------------ *)
(** ** More on the order of floats *)

Module PyFloatMore.

Ltac sf_cases :=
  simpl; try discriminate; try reflexivity;
  repeat match goal with
  | |- context [Z.compare ?a ?b] => destruct (Z.compare_spec a b)
  | |- context [Pos.compare_cont Eq ?a ?b] =>
      change (Pos.compare_cont Eq a b) with (Pos.compare a b);
      destruct (Pos.compare_spec a b)
  end; simpl; intros; subst; try discriminate; try reflexivity; try lia.

Lemma SFleb_not_SFltb (x y : spec_float) :
  SFleb y x = true -> SFltb x y = false.
Proof.
  unfold SFltb, SFleb, SFcompare.
  destruct x as [[]|[]| |[] mx ex]; destruct y as [[]|[]| |[] my ey];
    sf_cases.
Qed.

Lemma SFeqb_SFltb (a x y : spec_float) :
  SFeqb a x = true -> SFltb a y = true -> SFeqb y x = false.
Proof.
  unfold SFeqb, SFltb, SFcompare.
  destruct a as [[]|[]| |[] ma ea]; destruct x as [[]|[]| |[] mx ex];
    try (simpl; discriminate);
    destruct y as [[]|[]| |[] my ey]; sf_cases.
Qed.

Lemma SFltb_of_not_SFleb (x y : spec_float) :
  SFeqb x x = true -> SFeqb y y = true ->
  SFleb y x = false -> SFltb x y = true.
Proof.
  unfold SFeqb, SFltb, SFleb, SFcompare.
  destruct x as [[]|[]| |[] mx ex]; destruct y as [[]|[]| |[] my ey];
    sf_cases.
Qed.

Lemma SFleb_SFltb_trans (x y z : spec_float) :
  SFleb x y = true -> SFltb y z = true -> SFltb x z = true.
Proof.
  unfold SFltb, SFleb, SFcompare.
  destruct x as [[]|[]| |[] mx ex]; destruct y as [[]|[]| |[] my ey];
    try (simpl; discriminate);
    destruct z as [[]|[]| |[] mz ez]; sf_cases.
Qed.

Lemma leb_ltb_trans (x y z : float) :
  (x <=? y)%float = true -> (y <? z)%float = true -> (x <? z)%float = true.
Proof. rewrite leb_spec, !ltb_spec; apply SFleb_SFltb_trans. Qed.

Lemma leb_not_ltb (x y : float) :
  (y <=? x)%float = true -> (x <? y)%float = false.
Proof. rewrite leb_spec, ltb_spec; apply SFleb_not_SFltb. Qed.

Lemma eqb_ltb_neq (a x y : float) :
  (a =? x)%float = true -> (a <? y)%float = true -> (y =? x)%float = false.
Proof. rewrite !eqb_spec, ltb_spec; apply SFeqb_SFltb. Qed.

End PyFloatMore.

(* ------------------------------------------------------------------ *)
(** ** More on the ranking *)

Module RankingMore.
Import Models Ranking RankingFacts PyFloatMore.

(** The results with the score [x]. *)
Lemma filter_insert_desc (x : float) r l :
  filter (fun a => (score a =? x)%float) (insert_desc r l)
  = filter (fun a => (score a =? x)%float) (r :: l).
Proof.
  induction l as [|y t IH]; [reflexivity|].
  simpl insert_desc.
  destruct (score r <? score y)%float eqn:E; [|reflexivity].
  cbn [filter]; rewrite IH; cbn [filter].
  destruct (score r =? x)%float eqn:Er; [|reflexivity].
  now rewrite (eqb_ltb_neq _ _ _ Er E).
Qed.

(** X1.  The sort is stable.  Results with equal scores keep the order they
    had: the vector hits the order of the similarity search, and a graph
    result stays behind the vector hits of its score. *)
Theorem sort_desc_stable (x : float) (l : list SearchResult) :
  filter (fun a => (score a =? x)%float) (sort_desc l)
  = filter (fun a => (score a =? x)%float) l.
Proof.
  induction l as [|r l IH]; [reflexivity|].
  simpl sort_desc; rewrite filter_insert_desc.
  cbn [filter]; now rewrite IH.
Qed.

Lemma sort_desc_sorted_fixed (l : list SearchResult) :
  sorted_desc l -> sort_desc l = l.
Proof.
  induction 1 as [|x t Ht IH Hx]; [reflexivity|].
  simpl; rewrite IH.
  destruct t as [|y t']; [reflexivity|].
  simpl; inversion Hx as [|? ? Hxy _]; subst.
  now rewrite (leb_not_ltb _ _ Hxy).
Qed.

(** X2.  Sorting twice is sorting once: what [search_documents] returns is
    in its final order, and a caller that sorts it again by score changes
    nothing. *)
Theorem sort_desc_idempotent (l : list SearchResult) :
  Forall valid l -> sort_desc (sort_desc l) = sort_desc l.
Proof. intros Hl; apply sort_desc_sorted_fixed, sort_desc_sorted, Hl. Qed.

(** A result that no result of a list exceeds goes to its front. *)
Lemma insert_desc_front r (l : list SearchResult) :
  Forall (score_ge r) l -> insert_desc r l = r :: l.
Proof.
  intros [|y t Hy _]; [reflexivity|].
  simpl; now rewrite (leb_not_ltb _ _ Hy).
Qed.

Lemma filter_all {A} (f : A -> bool) (l : list A) :
  Forall (fun y => f y = true) l ->
  filter f l = l /\ filter (fun y => negb (f y)) l = [].
Proof.
  induction 1 as [|y t Hy _ [IH1 IH2]]; [split; reflexivity|].
  cbn [filter]; rewrite Hy, IH1, IH2; split; reflexivity.
Qed.

(** In a descending list, behind a result that scores below [g] all
    score below [g]. *)
Lemma sorted_desc_below (g v : SearchResult) (t : list SearchResult) :
  Forall (score_ge v) t -> (score v <? score g)%float = true ->
  Forall (fun y => (score y <? score g)%float = true) t.
Proof.
  intros Hv E; rewrite Forall_forall in *; intros y Hy.
  exact (leb_ltb_trans _ _ _ (Hv y Hy) E).
Qed.

(** A descending list is its results that do not score below [g], followed
    by those that do. *)
Lemma sorted_desc_partition (g : SearchResult) (l : list SearchResult) :
  sorted_desc l ->
  l = filter (fun v => negb (score v <? score g)%float) l
      ++ filter (fun v => (score v <? score g)%float) l.
Proof.
  induction 1 as [|v t Ht IH Hv]; [reflexivity|].
  cbn [filter].
  destruct (score v <? score g)%float eqn:E; simpl.
  - destruct (filter_all (fun y => (score y <? score g)%float) t
                (sorted_desc_below g v t Hv E)) as [E1 E2].
    now rewrite E1, E2.
  - now rewrite <- IH.
Qed.

(** The place of one more result in a descending list: behind the results
    that do not score below it. *)
Lemma sort_desc_splice (g : SearchResult) (l : list SearchResult) :
  sorted_desc l ->
  sort_desc (l ++ [g])
  = filter (fun v => negb (score v <? score g)%float) l
    ++ g :: filter (fun v => (score v <? score g)%float) l.
Proof.
  unfold sort_desc; rewrite fold_right_app; simpl fold_right at 2.
  induction 1 as [|v t Ht IH Hv]; [reflexivity|].
  cbn [fold_right filter]; rewrite IH.
  destruct (score v <? score g)%float eqn:E; simpl.
  - destruct (filter_all (fun y => (score y <? score g)%float) t
                (sorted_desc_below g v t Hv E)) as [E1 E2].
    rewrite E1, E2; simpl; rewrite E.
    now rewrite insert_desc_front.
  - destruct (filter (fun v => negb (score v <? score g)%float) t)
      as [|y f] eqn:Ef; simpl.
    + now rewrite E.
    + assert (Hy : In y t).
      { apply (proj1 (filter_In
                        (fun v => negb (score v <? score g)%float) y t));
        rewrite Ef; now left. }
      rewrite Forall_forall in Hv.
      now rewrite (leb_not_ltb _ _ (Hv y Hy)).
Qed.

End RankingMore.

(* ------------------------------------------------------------------ *)
(** ** More on the lexical scorer *)

Module LexicalMore.
Import PyStr PyStrFacts Lexical LexicalFacts LexicalSteps PyStrMore.
Import OfIntFacts PyFloatMore.
Local Open Scope string_scope.

Lemma is_space_lower (c : ascii) : is_space (lower_char c) = is_space c.
Proof. destruct c as [[] [] [] [] [] [] [] []]; reflexivity. Qed.

Lemma is_empty_lower (s : string) : is_empty (lower s) = is_empty s.
Proof. now destruct s. Qed.

Lemma lstrip_lower (s : string) : lstrip (lower s) = lower (lstrip s).
Proof.
  induction s as [|c s IH]; simpl; [reflexivity|].
  rewrite is_space_lower; now destruct (is_space c).
Qed.

Lemma rstrip_lower (s : string) : rstrip (lower s) = lower (rstrip s).
Proof.
  induction s as [|c s IH]; simpl; [reflexivity|].
  rewrite is_space_lower, IH, is_empty_lower.
  now destruct (is_space c && is_empty (rstrip s)).
Qed.

(** Trimming and lower-casing commute. *)
Lemma strip_lower (s : string) : strip (lower s) = lower (strip s).
Proof. unfold strip; now rewrite lstrip_lower, rstrip_lower. Qed.

Lemma terms_split (query : string) : terms query = split (lower query).
Proof. apply split_strip. Qed.

Lemma terms_nonempty (query term : string) :
  In term (terms query) -> is_empty term = false.
Proof. apply split_nonempty. Qed.

(** The score is the float of the sum that the loop adds up, also for the
    query that is empty once normalized. *)
Lemma lexical_score_count_sum (query content : string) :
  _lexical_score query content = PyFloat.of_int (count_sum query content).
Proof.
  unfold _lexical_score, count_sum, terms.
  destruct (is_empty (strip (lower query))) eqn:E; [|reflexivity].
  now rewrite (is_empty_true _ E).
Qed.

Lemma count_sum_list_sum (query content : string) :
  count_sum query content
  = Z.of_nat (list_sum (map (count (lower content)) (terms query))).
Proof. unfold count_sum; now rewrite fold_counts. Qed.

Lemma count_sum_nonneg (query content : string) :
  (0 <= count_sum query content)%Z.
Proof. rewrite count_sum_list_sum; lia. Qed.

Lemma list_sum_pos {A} (f : A -> nat) (l : list A) :
  0 < list_sum (map f l) <-> exists x, In x l /\ 0 < f x.
Proof.
  induction l as [|a l IH]; simpl.
  - split; [lia|intros (x & [] & _)].
  - split.
    + intros H; destruct (Nat.eq_dec (f a) 0) as [E|E].
      * destruct (proj1 IH ltac:(lia)) as (x & Hx & Hf); eauto.
      * exists a; split; [auto|lia].
    + intros (x & [<-|Hx] & Hf); [lia|].
      assert (0 < list_sum (map f l)) by (apply IH; eauto); lia.
Qed.

(** X3.  The score is positive exactly when some term of the query is a
    substring of the lower-cased content, and 0.0 otherwise. *)
Theorem lexical_score_positive_iff (query content : string) :
  ((0 <? _lexical_score query content)%float = true
   <-> exists term,
         In term (terms query) /\ contains (lower content) term)
  /\ ((forall term,
         In term (terms query) -> ~ contains (lower content) term) ->
      _lexical_score query content = 0%float).
Proof.
  rewrite lexical_score_count_sum, count_sum_list_sum.
  assert (Hc : (exists term, In term (terms query)
                             /\ 0 < count (lower content) term)
               <-> exists term, In term (terms query)
                                /\ contains (lower content) term).
  { split; intros (t & Ht & H); exists t; split; auto;
      apply (count_pos_contains _ _ (terms_nonempty _ _ Ht)); exact H. }
  split; [split|].
  - intros H; apply Hc, list_sum_pos.
    destruct (list_sum _) eqn:E; [discriminate H|lia].
  - intros H; apply Hc, list_sum_pos in H.
    apply of_int_pos; lia.
  - intros H.
    destruct (list_sum _) eqn:E; [reflexivity|exfalso].
    assert (Hp : 0 < list_sum (map (count (lower content)) (terms query)))
      by lia.
    apply list_sum_pos, Hc in Hp as (t & Ht & Hin).
    exact (H t Ht Hin).
Qed.

Lemma list_sum_bound {A} (f : A -> nat) (l : list A) (b : nat) :
  (forall x, In x l -> f x <= b) -> list_sum (map f l) <= List.length l * b.
Proof.
  induction l as [|a l IH]; simpl; intros H; [lia|].
  specialize (IH (fun x Hx => H x (or_intror Hx))).
  specialize (H a (or_introl eq_refl)); lia.
Qed.


(** X5.  Only the terms of the query matter: whitespace before, behind and
    between them does not change the score, and a query of whitespace
    scores 0.0. *)
Theorem lexical_score_terms_only :
  (forall query, terms query = split (lower query))
  /\ (forall q1 q2 content,
        split (lower q1) = split (lower q2) ->
        _lexical_score q1 content = _lexical_score q2 content)
  /\ (forall query content,
        is_empty (strip query) = true ->
        _lexical_score query content = 0%float).
Proof.
  split; [exact terms_split|split].
  - intros q1 q2 content H.
    rewrite !lexical_score_count_sum; unfold count_sum.
    now rewrite !terms_split, H.
  - intros query content H; unfold _lexical_score.
    now rewrite strip_lower, (is_empty_true _ H).
Qed.

(** X6.  The terms of a query count one by one: the sum for two queries
    written one after the other, a space between them, is the sum of their
    sums; a term written twice counts twice. *)
Theorem lexical_score_additive (q1 q2 content : string) :
  let q := String.append q1 (String (ascii_of_nat 32) q2) in
  terms q = (terms q1 ++ terms q2)%list
  /\ count_sum q content
     = (count_sum q1 content + count_sum q2 content)%Z
  /\ _lexical_score q content
     = PyFloat.of_int (count_sum q1 content + count_sum q2 content).
Proof.
  intros q.
  assert (Ht : terms q = (terms q1 ++ terms q2)%list).
  { unfold q; rewrite !terms_split, lower_append; simpl lower.
    change (lower_char (ascii_of_nat 32)) with (ascii_of_nat 32).
    apply (split_from_app (lower q1) (lower q2) EmptyString). }
  assert (Hc : count_sum q content
               = (count_sum q1 content + count_sum q2 content)%Z).
  { rewrite !count_sum_list_sum, Ht, map_app, list_sum_app; lia. }
  repeat split; try assumption.
  now rewrite lexical_score_count_sum, Hc.
Qed.

Lemma of_int_strict (a b : Z) :
  (0 <= a < b)%Z -> (b < 2 ^ 53)%Z ->
  (PyFloat.of_int a <? PyFloat.of_int b)%float = true.
Proof.
  intros Ha Hb.
  destruct (Z.eq_dec a 0) as [->|Na]; [apply of_int_pos; lia|].
  pose proof (of_int_exact a ltac:(lia)) as Ea.
  pose proof (of_int_exact b ltac:(lia)) as Eb.
  rewrite ltb_spec.
  assert (Fa : Binary64.from_one (Prim2SF (PyFloat.of_int a))).
  { rewrite of_int_spec by lia; apply Binary64Facts.round64_from_one.
    pose proof (Binary64Facts.pow2_pos 1074); nia. }
  assert (Fb : Binary64.from_one (Prim2SF (PyFloat.of_int b))).
  { rewrite of_int_spec by lia; apply Binary64Facts.round64_from_one.
    pose proof (Binary64Facts.pow2_pos 1074); nia. }
  pose proof (Binary64Facts.pow2_pos 1074 ltac:(lia)) as Hp.
  pose proof (from_one_valid _ Fa) as Va.
  pose proof (from_one_valid _ Fb) as Vb.
  destruct Fa as [Ia|(ma & ea & Ia & _)]; rewrite Ia in *;
    [simpl in Ea; nia|].
  destruct Fb as [Ib|(mb & eb & Ib & _)]; rewrite Ib in *;
    [simpl in Eb; nia|].
  apply SFltb_of_not_SFleb; try reflexivity.
  - unfold SFeqb, SFcompare; rewrite Z.compare_refl.
    change (Pos.compare_cont Eq ma ma) with (Pos.compare ma ma).
    now rewrite Pos.compare_refl.
  - unfold SFeqb, SFcompare; rewrite Z.compare_refl.
    change (Pos.compare_cont Eq mb mb) with (Pos.compare mb mb).
    now rewrite Pos.compare_refl.
  - destruct (SFleb _ _) eqn:E; [exfalso|reflexivity].
    apply Binary64Facts.SFleb_ival in E; try assumption.
    rewrite Ea, Eb in E; nia.
Qed.

(** X7.  Below [2^53] the conversion to [float] loses nothing: two scores
    compare as the sums they stand for. *)
Theorem lexical_score_order (q1 c1 q2 c2 : string) :
  (count_sum q1 c1 < 2 ^ 53)%Z -> (count_sum q2 c2 < 2 ^ 53)%Z ->
  (_lexical_score q1 c1 <? _lexical_score q2 c2)%float
  = (count_sum q1 c1 <? count_sum q2 c2)%Z.
Proof.
  intros H1 H2; rewrite !lexical_score_count_sum.
  pose proof (count_sum_nonneg q1 c1).
  pose proof (count_sum_nonneg q2 c2).
  destruct (Z.ltb_spec (count_sum q1 c1) (count_sum q2 c2)).
  - apply of_int_strict; lia.
  - apply leb_not_ltb, of_int_mono; lia.
Qed.

End LexicalMore.

(* ------------------------------------------------------------------ *)
(** ** More on the memo table *)

Module LruCacheMore.
Import LruCache LruCacheFacts.

Section Cache.
Context {K V : Type}.
Variable K_eq_dec : forall a b : K, {a = b} + {a <> b}.

Lemma lookup_remove_other k k' (c : t K V) :
  k' <> k ->
  lookup K_eq_dec k' (remove K_eq_dec k c) = lookup K_eq_dec k' c.
Proof.
  intros Hne; induction c as [|[k0 v0] c IH]; simpl; [reflexivity|].
  destruct (K_eq_dec k k0) as [->|N].
  - destruct (K_eq_dec k' k0); [contradiction|reflexivity].
  - simpl; now rewrite IH.
Qed.

Lemma lookup_None_keys k (c : t K V) :
  lookup K_eq_dec k c = None <-> ~ In k (map fst c).
Proof.
  induction c as [|[k0 v0] c IH]; simpl; [tauto|].
  destruct (K_eq_dec k k0) as [->|N].
  - split; [discriminate|intros H; exfalso; auto].
  - rewrite IH; split; [intros H [E|E]; auto|tauto].
Qed.

Lemma remove_keys k k' (c : t K V) :
  In k' (map fst (remove K_eq_dec k c)) -> In k' (map fst c).
Proof.
  induction c as [|[k0 v0] c IH]; simpl; [tauto|].
  destruct (K_eq_dec k k0); simpl; tauto.
Qed.

Lemma remove_NoDup k (c : t K V) :
  NoDup (map fst c) ->
  NoDup (map fst (remove K_eq_dec k c))
  /\ ~ In k (map fst (remove K_eq_dec k c)).
Proof.
  induction c as [|[k0 v0] c IH]; simpl; intros H.
  - split; [constructor|tauto].
  - inversion H as [|? ? Hin Hnd]; subst.
    destruct (K_eq_dec k k0) as [->|N]; [auto|].
    destruct (IH Hnd) as [H1 H2]; simpl; split.
    + constructor; [|assumption].
      intros Hc; apply Hin; eapply remove_keys; eassumption.
    + intros [E|E]; [congruence|auto].
Qed.

Lemma removelast_keys (c : t K V) :
  forall k, In k (map fst (removelast c)) -> In k (map fst c).
Proof.
  induction c as [|[k0 v0] c IH]; simpl; [tauto|].
  destruct c as [|p c']; [simpl; tauto|].
  intros k [E|Hin]; [now left|right; apply IH, Hin].
Qed.

Lemma removelast_NoDup (c : t K V) :
  NoDup (map fst c) -> NoDup (map fst (removelast c)).
Proof.
  induction c as [|[k0 v0] c IH]; simpl; intros H; [constructor|].
  inversion H as [|? ? Hin Hnd]; subst.
  destruct c as [|p c']; [constructor|].
  change (NoDup (k0 :: map fst (removelast (p :: c')))).
  constructor; [|apply IH, Hnd].
  intros Hc; apply Hin; now apply removelast_keys.
Qed.

(** The table keeps one entry per key. *)
Lemma touch_NoDup k v (c : t K V) :
  NoDup (map fst c) -> NoDup (map fst (touch K_eq_dec k v c)).
Proof.
  intros H; destruct (remove_NoDup k c H) as [H1 H2].
  unfold touch; simpl; now constructor.
Qed.

Lemma store_NoDup k v (c : t K V) :
  lookup K_eq_dec k c = None ->
  NoDup (map fst c) -> NoDup (map fst (store k v c)).
Proof.
  intros Hl H; apply lookup_None_keys in Hl.
  unfold store; destruct (maxsize <=? List.length c); simpl.
  - constructor; [|now apply removelast_NoDup].
    intros Hc; apply Hl; now apply removelast_keys.
  - now constructor.
Qed.

(** The front entry outlives the storing of another key. *)
Lemma lookup_store_front k v k' v' (rest : t K V) :
  k' <> k ->
  lookup K_eq_dec k (store k' v' ((k, v) :: rest)) = Some v.
Proof.
  intros Hne; unfold store.
  destruct (maxsize <=? List.length ((k, v) :: rest)) eqn:E.
  - destruct rest as [|p rest'].
    + apply Nat.leb_le in E; unfold maxsize in E; simpl in E; lia.
    + change (removelast ((k, v) :: p :: rest'))
        with ((k, v) :: removelast (p :: rest')).
      simpl; destruct (K_eq_dec k k'); [congruence|].
      destruct (K_eq_dec k k); congruence.
  - simpl; destruct (K_eq_dec k k'); [congruence|].
    destruct (K_eq_dec k k); congruence.
Qed.

End Cache.
End LruCacheMore.

Module MemoMore.
Import Models Search LruCache LruCacheFacts LruCacheMore SearchFacts MemoFacts.

Section WithCollaborators.
Variable C : Collaborators.

Abbreviation State := (State C).

(** The three ways a call of [load_FAISS] can go. *)
Lemma load_FAISS_outcome documents (s : State) :
  let r := fst (load_FAISS C documents s) in
  let s1 := snd (load_FAISS C documents s) in
  (exists ix, r = Return ix
              /\ lookup docs_eq_dec documents (cache s) = Some ix
              /\ cache s1 = touch docs_eq_dec documents ix (cache s)
              /\ built s1 = built s)
  \/ (exists ix, r = Return ix
                 /\ lookup docs_eq_dec documents (cache s) = None
                 /\ cache s1 = store documents ix (cache s)
                 /\ built s1 = S (built s))
  \/ (exists e, r = Raise e
                /\ lookup docs_eq_dec documents (cache s) = None
                /\ cache s1 = cache s
                /\ built s1 = built s).
Proof.
  unfold load_FAISS, bind, log, get_cache; simpl.
  destruct (lookup docs_eq_dec documents (cache s)) as [ix0|] eqn:El.
  - left; exists ix0; simpl; auto.
  - right.
    unfold load_FAISS_wrapped, bind, log, outside; simpl.
    destruct (new_OpenAIEmbeddings C (world s)) as [[em|e] w]; simpl;
      [|right; exists e; auto].
    destruct (FAISS_from_documents C documents em w) as [[st|e] w']; simpl;
      [|right; exists e; auto].
    left; eexists; simpl; auto.
Qed.

(** X8.  A build that raises leaves no entry: the memo table and the count
    of objects are as before, so the next call builds again. *)
Theorem load_FAISS_failure_not_cached documents (s s1 : State) e :
  load_FAISS C documents s = (Raise e, s1) ->
  cache s1 = cache s /\ built s1 = built s /\ cached documents s1 = false.
Proof.
  intros H; pose proof (load_FAISS_outcome documents s) as O.
  rewrite H in O; simpl in O.
  destruct O as [(ix & E & _)|[(ix & E & _)|(e' & _ & Hl & Hc & Hb)]];
    try discriminate.
  repeat split; try assumption.
  unfold cached; now rewrite Hc, Hl.
Qed.

(** X9.  A hit, and a miss on a table that is not full, evict nothing:
    what was stored before the call is stored after it. *)
Theorem load_FAISS_keeps_entries documents (s s1 : State) ix :
  load_FAISS C documents s = (Return ix, s1) ->
  cached documents s = true \/ List.length (cache s) < maxsize ->
  forall documents', cached documents' s = true ->
                     cached documents' s1 = true.
Proof.
  intros H Hroom d' Hd'.
  destruct (docs_eq_dec d' documents) as [->|Hne].
  - destruct (load_FAISS_front C _ _ _ _ H) as [rest Hc].
    unfold cached; now rewrite Hc, lookup_head.
  - pose proof (load_FAISS_outcome documents s) as O.
    rewrite H in O; simpl in O; unfold cached in *.
    destruct O as [(ix' & _ & _ & Hc & _)|[(ix' & _ & Hl & Hc & _)
                                          |(e' & E & _)]];
      try discriminate; rewrite Hc.
    + unfold touch; simpl.
      destruct (docs_eq_dec d' documents); [contradiction|].
      now rewrite lookup_remove_other.
    + rewrite Hl in Hroom; destruct Hroom as [?|Hroom]; [discriminate|].
      unfold store.
      apply Nat.leb_gt in Hroom; rewrite Hroom; simpl.
      now destruct (docs_eq_dec d' documents).
Qed.

(** X10.  The entry used last is not the one that the next call evicts. *)
Theorem load_FAISS_recent_survives documents (s s1 : State) ix :
  load_FAISS C documents s = (Return ix, s1) ->
  forall documents',
    cached documents (snd (load_FAISS C documents' s1)) = true.
Proof.
  intros H d'.
  destruct (load_FAISS_front C _ _ _ _ H) as [rest Hc].
  pose proof (load_FAISS_outcome d' s1) as O; cbv zeta in O.
  unfold cached.
  destruct O as [(ix' & _ & Hl & -> & _)|[(ix' & _ & Hl & -> & _)
                                         |(e' & _ & _ & -> & _)]].
  - unfold touch; simpl.
    destruct (docs_eq_dec documents d') as [|Hne]; [reflexivity|].
    rewrite lookup_remove_other by assumption.
    now rewrite Hc, lookup_head.
  - rewrite Hc in *.
    rewrite lookup_store_front; [reflexivity|].
    intros ->; now rewrite lookup_head in Hl.
  - now rewrite Hc, lookup_head.
Qed.

(** X11.  The memo table holds at most one entry for a sequence of
    documents, whatever the call does. *)
Theorem load_FAISS_one_entry_per_key documents (s : State) :
  NoDup (map fst (cache s)) ->
  NoDup (map fst (cache (snd (load_FAISS C documents s)))).
Proof.
  intros H; pose proof (load_FAISS_outcome documents s) as O; cbv zeta in O.
  destruct O as [(ix' & _ & Hl & -> & _)|[(ix' & _ & Hl & -> & _)
                                         |(e' & _ & _ & -> & _)]].
  - now apply touch_NoDup.
  - now apply store_NoDup with (K_eq_dec := docs_eq_dec).
  - assumption.
Qed.

End WithCollaborators.
End MemoMore.

(* ------------------------------------------------------------------ *)
(** ** More on the orchestrator *)

Module SearchMore.
Import Models Ranking RankingFacts Search SearchSteps SearchFacts MemoFacts.

Section WithCollaborators.
Variable C : Collaborators.

Abbreviation State := (State C).

(** The translator with its client, parser and prompt built. *)
Lemma text_to_cypher_built text (s : State) llm w parser schema :
  new_OpenAI C (world s) = (Return llm, w) ->
  new_PydanticOutputParser C = Return parser ->
  parser_schema C parser = Return schema ->
  fst (text_to_cypher C text s)
  = Return (translation llm parser (prompt_of schema text) w).
Proof.
  intros H1 H2 H3.
  unfold text_to_cypher, translation, try_except, bind, log, outside, lift;
    simpl.
  rewrite H1, H2, H3; simpl.
  destruct (apredict C llm (prompt_of schema text) w) as [[raw|e] w'];
    simpl; [|reflexivity].
  now destruct (parse C parser raw).
Qed.


(** The translator leaves the memo table alone. *)
Lemma text_to_cypher_memo text (s : State) :
  cache (snd (text_to_cypher C text s)) = cache s
  /\ built (snd (text_to_cypher C text s)) = built s.
Proof.
  unfold text_to_cypher, try_except, bind, log, outside, lift; simpl.
  destruct (new_OpenAI C (world s)) as [[llm|e] w]; simpl; [|auto].
  destruct (new_PydanticOutputParser C) as [parser|e]; simpl; [|auto].
  destruct (parser_schema C parser) as [schema|e]; simpl; [|auto].
  destruct (apredict C llm (prompt_of schema text) w) as [[raw|e] w'];
    simpl; [|auto].
  destruct (parse C parser raw); simpl; auto.
Qed.

Lemma augment_memo query results (s : State) :
  cache (snd (augment C query results s)) = cache s
  /\ built (snd (augment C query results s)) = built s.
Proof.
  pose proof (text_to_cypher_memo query s) as H.
  unfold augment, bind.
  destruct (text_to_cypher C query s) as [[[q|]|e] s3]; simpl in *; exact H.
Qed.

(** After the index is there, a search leaves the memo table as
    [load_FAISS] left it. *)
Lemma search_nonempty_memo query documents (s s1 : State) ix :
  load_FAISS C documents s = (Return ix, s1) ->
  cache (snd (search_nonempty C query documents s)) = cache s1
  /\ built (snd (search_nonempty C query documents s)) = built s1.
Proof.
  intros Hl; rewrite search_nonempty_split.
  unfold bind.
  destruct (vector_path C query documents s) as [[vec|e] s2] eqn:Hv.
  - assert (E : cache s2 = cache s1 /\ built s2 = built s1).
    { revert Hv; unfold vector_path; rewrite bind_return with (1 := Hl).
      unfold bind, log, outside, lift; simpl.
      destruct (similarity_search_with_score _ _ _ _ _) as [[hits|e] w2];
        intros [= _ <-]; simpl; auto. }
    destruct (augment_memo query vec s2) as [H1 H2].
    destruct E as [E1 E2]; split; congruence.
  - simpl; revert Hv; unfold vector_path; rewrite bind_return with (1 := Hl).
    unfold bind, log, outside, lift; simpl.
    destruct (similarity_search_with_score _ _ _ _ _) as [[hits|e'] w2];
      intros [= _ <-]; simpl; auto.
Qed.

(** X13.  A failure of the similarity search is the failure of the search,
    and the run ends there: the state is the one the similarity search
    left, so the translator is not called. *)
Theorem similarity_failure_propagates query documents (s s1 : State)
    ix e w2 :
  PyStr.is_empty query = false ->
  load_FAISS C documents s = (Return ix, s1) ->
  similarity_search_with_score C (store ix) query
    (List.length documents) (world s1) = (Raise e, w2) ->
  search_documents C query documents s
  = (Raise e,
     {| world := w2; cache := cache s1; built := built s1;
        trace := CallSimilaritySearch query (List.length documents)
                 :: trace s1 |}).
Proof.
  intros Hq Hl Hs; unfold search_documents; rewrite Hq.
  unfold search_nonempty; rewrite bind_return with (1 := Hl).
  unfold bind, log, outside; simpl; now rewrite Hs.
Qed.


Lemma of_hit_documents hits vec :
  Forall2 of_hit hits vec -> map document vec = map fst hits.
Proof.
  induction 1 as [|h r hits vec (Hd & _) _ IH]; simpl; congruence.
Qed.

(** X15.  The documents returned are the documents of the hits and the
    document of the graph result, each once: the search drops nothing and
    repeats nothing. *)
Theorem search_documents_documents query documents (s s' : State) l :
  PyStr.is_empty query = false ->
  search_documents C query documents s = (Return l, s') ->
  exists ix s1 hits w2 cy,
    load_FAISS C documents s = (Return ix, s1)
    /\ similarity_search_with_score C (store ix) query
         (List.length documents) (world s1) = (Return hits, w2)
    /\ Permutation (map document l)
         (map fst hits ++ map document (graph_hits cy)).
Proof.
  intros Hq; unfold search_documents; rewrite Hq, search_nonempty_split.
  intros H; apply bind_return_inv in H as (vec & s2 & Hv & Ha).
  apply vector_path_return in Hv as (ix & s1 & hits & Hl & Hs & Hh & _).
  apply augment_return in Ha as (cy & s3 & _ & ->).
  exists ix, s1, hits, (world s2), cy; repeat split; try assumption.
  rewrite <- (of_hit_documents _ _ Hh), <- map_app.
  apply Permutation_map.
  unfold graph_hits; apply sort_desc_perm.
Qed.

(** X16.  A search over documents whose index is there leaves the index in
    the memo table: the next call of [load_FAISS] on the same documents,
    as the next search makes it, is a hit on the same object and builds
    nothing. *)
Theorem repeated_search_reuses_index query documents (s s1 : State) ix :
  PyStr.is_empty query = false ->
  load_FAISS C documents s = (Return ix, s1) ->
  let s' := snd (search_documents C query documents s) in
  load_FAISS C documents s'
  = (Return ix, logged (CallLoadFAISS documents) s')
  /\ built s' = built s1.
Proof.
  intros Hq Hl; cbv zeta; unfold search_documents; rewrite Hq.
  destruct (search_nonempty_memo query documents s s1 ix Hl) as [Hc Hb].
  destruct (load_FAISS_front C _ _ _ _ Hl) as [rest Hr].
  split; [|exact Hb].
  apply load_FAISS_hit with rest; congruence.
Qed.

(** X17.  With distances that are not negative, every score of the returned
    list lies between 0 and 1. *)
Theorem search_documents_unit_scores query documents (s s1 s' : State)
    ix hits w2 l :
  PyStr.is_empty query = false ->
  load_FAISS C documents s = (Return ix, s1) ->
  similarity_search_with_score C (store ix) query
    (List.length documents) (world s1) = (Return hits, w2) ->
  Forall (fun h => (0 <=? snd h)%float = true) hits ->
  search_documents C query documents s = (Return l, s') ->
  Forall (fun r => (0 <=? score r)%float = true
                   /\ (score r <=? 1)%float = true) l.
Proof.
  intros Hq Hl Hs Hd; unfold search_documents.
  rewrite Hq, search_nonempty_split.
  intros H; apply bind_return_inv in H as (vec & s2 & Hv & Ha).
  apply vector_path_return in Hv as (ix' & s1' & hits' & Hl' & Hs' & Hh & _).
  rewrite Hl in Hl'; injection Hl' as <- <-.
  rewrite Hs in Hs'; injection Hs' as <- _.
  apply augment_return in Ha as (cy & s3 & _ & ->).
  assert (Hvec : Forall (fun r => (0 <=? score r)%float = true
                                  /\ (score r <=? 1)%float = true) vec).
  { clear - Hd Hh; induction Hh as [|[doc d] r hits vec (_ & Hr & _) _ IH];
      [constructor|].
    inversion Hd as [|? ? Hd0 Hd']; subst; constructor; [|now apply IH].
    simpl in *.
    rewrite ScoreFacts.vector_score_return in Hr by assumption.
    injection Hr as Hr; rewrite <- Hr.
    destruct (Binary64Facts.score_range d Hd0) as (H0 & H1 & _); auto. }
  rewrite Forall_forall in *; intros r Hr.
  apply (Permutation_in _ (sort_desc_perm _)) in Hr.
  apply in_app_or in Hr as [Hr|Hr]; [now apply Hvec|].
  destruct cy as [q|]; [|destruct Hr].
  destruct Hr as [<-|[]]; split; reflexivity.
Qed.

(** Hits in the order of their distances make results in the order of
    their scores. *)
Lemma of_hit_sorted hits vec :
  Forall2 of_hit hits vec ->
  Forall (fun h => (0 <=? snd h)%float = true) hits ->
  StronglySorted (fun h1 h2 => (snd h1 <=? snd h2)%float = true) hits ->
  sorted_desc vec.
Proof.
  induction 1 as [|h r hits vec (_ & Hr & _) Hrest IH]; intros Hd Hs;
    [constructor|].
  inversion Hd as [|? ? Hd0 Hd']; subst.
  inversion Hs as [|? ? Hs' Hh]; subst.
  constructor; [now apply IH|].
  rewrite ScoreFacts.vector_score_return in Hr by assumption.
  injection Hr as Hr.
  clear - Hrest Hd' Hh Hd0 Hr.
  induction Hrest as [|h' r' hits vec (_ & Hr' & _) _ IH]; [constructor|].
  inversion Hd' as [|? ? Hd1 Hd'']; subst.
  inversion Hh as [|? ? Hle Hh']; subst.
  constructor; [|now apply IH].
  rewrite ScoreFacts.vector_score_return in Hr' by assumption.
  injection Hr' as Hr'.
  unfold score_ge; rewrite <- Hr, <- Hr'.
  now apply Binary64Facts.score_antitone.
Qed.

(** X18.  When the similarity search lists its hits by growing distance, the
    search returns the vector results in that order, and the graph result
    stands among them behind the results that score 0.9 or more and before
    those that score less. *)
Theorem search_documents_order query documents (s s1 s' : State)
    ix hits w2 l :
  PyStr.is_empty query = false ->
  load_FAISS C documents s = (Return ix, s1) ->
  similarity_search_with_score C (store ix) query
    (List.length documents) (world s1) = (Return hits, w2) ->
  Forall (fun h => (0 <=? snd h)%float = true) hits ->
  StronglySorted (fun h1 h2 => (snd h1 <=? snd h2)%float = true) hits ->
  search_documents C query documents s = (Return l, s') ->
  exists front back cy,
    Forall2 of_hit hits (front ++ back)
    /\ l = front ++ graph_hits cy ++ back
    /\ Forall (fun r => (graph_score <=? score r)%float = true) front
    /\ Forall (fun r => (score r <? graph_score)%float = true) back.
Proof.
  intros Hq Hl Hs Hd Ho; unfold search_documents.
  rewrite Hq, search_nonempty_split.
  intros H; apply bind_return_inv in H as (vec & s2 & Hv & Ha).
  apply vector_path_return in Hv as (ix' & s1' & hits' & Hl' & Hs' & Hh & Hval).
  rewrite Hl in Hl'; injection Hl' as <- <-.
  rewrite Hs in Hs'; injection Hs' as <- _.
  apply augment_return in Ha as (cy & s3 & _ & ->).
  pose proof (of_hit_sorted _ _ Hh Hd Ho) as Hsorted.
  pose (g := graph_result {| cypher := EmptyString |}).
  exists (filter (fun v => negb (score v <? graph_score)%float) vec),
         (filter (fun v => (score v <? graph_score)%float) vec), cy.
  pose proof (RankingMore.sorted_desc_partition g vec Hsorted) as Hp.
  change (score g) with graph_score in Hp.
  split; [now rewrite <- Hp|].
  split.
  - destruct cy as [q|]; simpl.
    + rewrite (RankingMore.sort_desc_splice (graph_result q) vec Hsorted).
      reflexivity.
    + rewrite app_nil_r, (RankingMore.sort_desc_sorted_fixed vec Hsorted).
      exact Hp.
  - split; apply Forall_forall; intros r Hr;
      apply filter_In in Hr as [Hin Hr].
    + apply PyFloatFacts.ltb_false_leb;
        [apply valid_is_number; rewrite Forall_forall in Hval; auto
        |reflexivity
        |now apply negb_true_iff].
    + exact Hr.
Qed.

End WithCollaborators.
End SearchMore.

(* ------------------------------------------------------------------ *)
(** ** The route handler *)

Module RouterFacts.
Import Models Search Router PyStr PyStrMore.

(** [s.strip()] is empty exactly when [s] is whitespace throughout. *)
Lemma strip_blank (s : string) :
  is_empty (strip s) = forallb is_space (list_ascii_of_string s).
Proof.
  induction s as [|c s IH]; [reflexivity|].
  unfold strip in *; simpl.
  destruct (is_space c) eqn:E; simpl; [exact IH|].
  now rewrite E.
Qed.

Lemma binds_top_k : binds search_documents_params 2 ["top_k"%string] = false.
Proof. reflexivity. Qed.

Section WithApp.
Variable C : Collaborators.
Variable DOCUMENTS : list Document.
Variable datetime : Type.
Variable utcnow : World C -> datetime.

Abbreviation App := (App C datetime).
Abbreviation search := (search C DOCUMENTS datetime utcnow).
Abbreviation serve := (serve C DOCUMENTS datetime utcnow).

(** The entry the handler writes for [request] in the state [app]. *)
Lemma search_run request (app : App) :
  search request app
  = if is_empty (strip (query request))
    then (Failed (HTTPException 400 "Query must not be empty."), app)
    else (Failed TypeError,
          {| engine := engine app;
             SEARCH_HISTORY :=
               SEARCH_HISTORY app
               ++ [{| entry_query := strip (query request);
                      timestamp := utcnow (world (engine app)) |}] |}).
Proof.
  unfold Router.search, new_SearchEntry, call.
  destruct (is_empty (strip (query request))) eqn:E; [reflexivity|].
  now rewrite binds_top_k.
Qed.

(** X19.  The handler answers [HTTPException(400)] exactly to the queries
    that are whitespace throughout (the empty one included), and then it
    records nothing and searches nothing. *)
Theorem search_rejects_blank request (app : App) :
  (fst (search request app)
   = Failed (HTTPException 400 "Query must not be empty.")
   <-> forallb is_space (list_ascii_of_string (query request)) = true)
  /\ (forallb is_space (list_ascii_of_string (query request)) = true ->
      snd (search request app) = app).
Proof.
  rewrite search_run, <- strip_blank.
  destruct (is_empty (strip (query request))); simpl; split;
    try split; try reflexivity; try discriminate.
Qed.

(** X20.  The handler returns no result.  The call of [search_documents]
    passes [top_k], which the function does not take: a query that is not
    blank is recorded in the history and the call raises [TypeError]
    before the body of [search_documents] runs, so the state of the
    integrations (index cache, calls made) is as it was. *)
Theorem search_never_returns request (app : App) :
  (forall results, fst (search request app) <> Done results)
  /\ engine (snd (search request app)) = engine app
  /\ (is_empty (strip (query request)) = false ->
      fst (search request app) = Failed TypeError
      /\ SEARCH_HISTORY (snd (search request app))
         = SEARCH_HISTORY app
           ++ [{| entry_query := strip (query request);
                  timestamp := utcnow (world (engine app)) |}]).
Proof.
  rewrite search_run.
  destruct (is_empty (strip (query request))); simpl;
    repeat split; try discriminate; try reflexivity.
Qed.

Lemma serve_app requests1 requests2 (app : App) :
  serve (requests1 ++ requests2) app = serve requests2 (serve requests1 app).
Proof. apply fold_left_app. Qed.

(** X21.  Over any sequence of requests the history is the list of the
    stripped queries of the requests that are not blank, in the order of
    arrival, one entry per request, and the state of the integrations
    does not change. *)
Theorem serve_history requests (app : App) :
  engine (serve requests app) = engine app
  /\ map entry_query (SEARCH_HISTORY (serve requests app))
     = map entry_query (SEARCH_HISTORY app)
       ++ filter (fun q => negb (is_empty q))
            (map (fun request => strip (query request)) requests).
Proof.
  revert app; induction requests as [|request requests IH]; intros app.
  - simpl; now rewrite app_nil_r.
  - change (serve (request :: requests) app)
      with (serve requests (snd (search request app))).
    destruct (IH (snd (search request app))) as [He Hh].
    rewrite He, Hh, search_run; simpl.
    destruct (is_empty (strip (query request))); simpl; [auto|].
    now rewrite map_app, <- app_assoc.
Qed.

(** X22.  Every entry of a history that started empty holds a query that is
    not empty and has no whitespace at its ends: the validation of
    [SearchEntry] never fails in the handler. *)
Theorem serve_history_stripped requests (s : State C) :
  Forall stripped_entry
    (SEARCH_HISTORY (serve requests {| engine := s; SEARCH_HISTORY := [] |})).
Proof.
  assert (G : forall (app : App),
             Forall stripped_entry (SEARCH_HISTORY app) ->
             Forall stripped_entry (SEARCH_HISTORY (serve requests app))).
  { induction requests as [|request requests IH]; intros app Ha; [exact Ha|].
    change (serve (request :: requests) app)
      with (serve requests (snd (search request app))).
    apply IH; rewrite search_run.
    destruct (is_empty (strip (query request))) eqn:E; simpl; [exact Ha|].
    apply Forall_app; split; [exact Ha|].
    constructor; [|constructor].
    split; simpl; [exact E|apply strip_idempotent]. }
  apply G; constructor.
Qed.

End WithApp.
End RouterFacts.

(* ------------------------------------------------------------------ *)
(** ** More runs on the scripts *)

Module MoreChecks.
Import Models Ranking Lexical LexicalSteps Search SearchSteps Scripted
  ScriptedMore.
Import LexicalMore RankingMore MemoMore SearchMore.
Local Open Scope string_scope.

Ltac run := vm_compute; reflexivity.

Example search_similarity_down :
  fst (search_documents search_down "q" docs fresh_search_down)
  = Raise (ExternalError 7).
Proof. run. Qed.

Lemma lexical_score_order_witness :
  (count_sum "a" "b" < 2 ^ 53)%Z
  /\ (count_sum "a" "a a" < 2 ^ 53)%Z
  /\ (_lexical_score "a" "b" <? _lexical_score "a" "a a")%float
     = (count_sum "a" "b" <? count_sum "a" "a a")%Z.
Proof.
  split; [run|]. split; [run|].
  apply (lexical_score_order "a" "b" "a" "a a"); run.
Defined.

Lemma sort_desc_idempotent_witness :
  let l := [ {| document := doc "far"; score := 0.5; reason := None |};
             {| document := doc "near"; score := 1; reason := None |} ] in
  Forall valid l /\ sort_desc (sort_desc l) = sort_desc l.
Proof.
  intros l.
  assert (H : Forall valid l) by (repeat constructor).
  split; [exact H|exact (sort_desc_idempotent l H)].
Defined.

Lemma load_FAISS_failure_not_cached_witness :
  let C := collaborators embeddings_down in
  exists s1,
    load_FAISS C docs (fresh embeddings_down)
    = (Raise (ExternalError 1), s1)
    /\ cache s1 = cache (fresh embeddings_down)
    /\ built s1 = built (fresh embeddings_down)
    /\ cached docs s1 = false.
Proof.
  intros C; eexists; split; [run|].
  eapply (load_FAISS_failure_not_cached C docs (fresh embeddings_down));
    run.
Defined.

Lemma load_FAISS_keeps_entries_witness :
  let C := collaborators all_up in
  exists ix s1,
    load_FAISS C (corpus 1) (after_corpora 1) = (Return ix, s1)
    /\ List.length (cache (after_corpora 1)) < LruCache.maxsize
    /\ cached (corpus 0) (after_corpora 1) = true
    /\ cached (corpus 0) s1 = true.
Proof.
  intros C.
  assert (Hroom : List.length (cache (after_corpora 1)) < LruCache.maxsize)
    by (vm_compute; repeat constructor).
  eexists _, _; split; [run|]. split; [exact Hroom|]. split; [run|].
  eapply (load_FAISS_keeps_entries C (corpus 1) (after_corpora 1));
    [run | right; exact Hroom | run].
Defined.

Lemma load_FAISS_recent_survives_witness :
  let C := collaborators all_up in
  exists ix s1,
    load_FAISS C (corpus 0) (after_corpora 3) = (Return ix, s1)
    /\ cached (corpus 0) (snd (load_FAISS C (corpus 3) s1)) = true.
Proof.
  intros C; eexists _, _; split; [run|].
  eapply (load_FAISS_recent_survives C (corpus 0) (after_corpora 3));
    run.
Defined.

Lemma load_FAISS_one_entry_per_key_witness :
  let C := collaborators all_up in
  NoDup (map fst (cache (fresh all_up)))
  /\ NoDup (map fst (cache (snd (load_FAISS C docs (fresh all_up))))).
Proof.
  intros C.
  assert (H : NoDup (map fst (cache (fresh all_up)))) by constructor.
  split; [exact H|].
  exact (load_FAISS_one_entry_per_key C docs (fresh all_up) H).
Defined.


Lemma similarity_failure_propagates_witness :
  let C := search_down in
  exists ix s1,
    PyStr.is_empty "q" = false
    /\ load_FAISS C docs fresh_search_down = (Return ix, s1)
    /\ similarity_search_with_score C (store ix) "q" (List.length docs)
         (world s1) = (Raise (ExternalError 7), tt)
    /\ search_documents C "q" docs fresh_search_down
       = (Raise (ExternalError 7),
          Build_State C tt (cache s1) (built s1)
            (CallSimilaritySearch "q" (List.length docs) :: trace s1)).
Proof.
  intros C; eexists _, _.
  split; [run|]. split; [run|]. split; [run|].
  eapply (similarity_failure_propagates C "q" docs fresh_search_down); run.
Defined.


Lemma search_documents_documents_witness :
  let C := collaborators all_up in
  exists l s',
    PyStr.is_empty "q" = false
    /\ search_documents C "q" docs (fresh all_up) = (Return l, s')
    /\ exists ix s1 hits w2 cy,
         load_FAISS C docs (fresh all_up) = (Return ix, s1)
         /\ similarity_search_with_score C (store ix) "q"
              (List.length docs) (world s1) = (Return hits, w2)
         /\ Permutation (map document l)
              (map fst hits ++ map document (graph_hits cy)).
Proof.
  intros C; eexists _, _.
  split; [run|]. split; [run|].
  eapply (search_documents_documents C "q" docs (fresh all_up)); run.
Defined.

Lemma repeated_search_reuses_index_witness :
  let C := collaborators all_up in
  exists ix s1,
    PyStr.is_empty "q" = false
    /\ load_FAISS C docs (fresh all_up) = (Return ix, s1)
    /\ let s' := snd (search_documents C "q" docs (fresh all_up)) in
       load_FAISS C docs s'
       = (Return ix, logged (CallLoadFAISS docs) s')
       /\ built s' = built s1.
Proof.
  intros C; eexists _, _.
  split; [run|]. split; [run|].
  eapply (repeated_search_reuses_index C "q" docs (fresh all_up)); run.
Defined.

Lemma search_documents_unit_scores_witness :
  let C := collaborators all_up in
  exists ix s1 hits w2 l s',
    PyStr.is_empty "q" = false
    /\ load_FAISS C docs (fresh all_up) = (Return ix, s1)
    /\ similarity_search_with_score C (store ix) "q" (List.length docs)
         (world s1) = (Return hits, w2)
    /\ Forall (fun h => (0 <=? snd h)%float = true) hits
    /\ search_documents C "q" docs (fresh all_up) = (Return l, s')
    /\ Forall (fun r => (0 <=? score r)%float = true
                        /\ (score r <=? 1)%float = true) l.
Proof.
  intros C.
  assert (Hd : Forall (fun h : Document * float => (0 <=? snd h)%float = true)
                 two_hits)
    by (repeat constructor).
  exists (Build_Index C 0 docs), (snd (load_FAISS C docs (fresh all_up))),
    two_hits, tt.
  eexists _, _.
  split; [run|]. split; [run|]. split; [run|]. split; [exact Hd|].
  split; [run|].
  eapply (search_documents_unit_scores C "q" docs (fresh all_up)
            _ _ (Build_Index C 0 docs) two_hits tt);
    [run | run | run | exact Hd | run].
Defined.

Lemma search_documents_order_witness :
  let C := collaborators all_up in
  exists ix s1 hits w2 l s',
    PyStr.is_empty "q" = false
    /\ load_FAISS C docs (fresh all_up) = (Return ix, s1)
    /\ similarity_search_with_score C (store ix) "q" (List.length docs)
         (world s1) = (Return hits, w2)
    /\ Forall (fun h => (0 <=? snd h)%float = true) hits
    /\ StronglySorted (fun h1 h2 => (snd h1 <=? snd h2)%float = true) hits
    /\ search_documents C "q" docs (fresh all_up) = (Return l, s')
    /\ exists front back cy,
         Forall2 of_hit hits (front ++ back)%list
         /\ l = (front ++ graph_hits cy ++ back)%list
         /\ Forall (fun r => (graph_score <=? score r)%float = true) front
         /\ Forall (fun r => (score r <? graph_score)%float = true) back.
Proof.
  intros C.
  assert (Hd : Forall (fun h : Document * float => (0 <=? snd h)%float = true)
                 two_hits)
    by (repeat constructor).
  assert (Ho : StronglySorted
                 (fun h1 h2 : Document * float =>
                    (snd h1 <=? snd h2)%float = true) two_hits)
    by (repeat constructor).
  exists (Build_Index C 0 docs), (snd (load_FAISS C docs (fresh all_up))),
    two_hits, tt.
  eexists _, _.
  split; [run|]. split; [run|]. split; [run|]. split; [exact Hd|].
  split; [exact Ho|]. split; [run|].
  eapply (search_documents_order C "q" docs (fresh all_up)
            _ _ (Build_Index C 0 docs) two_hits tt);
    [run | run | run | exact Hd | exact Ho | run].
Defined.

End MoreChecks.
